(** * Fixture audit (scripts/audit_vercel_fixtures.py)

    A shallow embedding of the audit script: the case-id helpers on strings,
    the two directory walks over a tree model of the file system, and the
    classification loop of [main], run in a small error monad that also
    records which files were opened for hashing.

    Conventions.  Strings are byte strings; for UTF-8 text, splitting on an
    ASCII character, testing an ASCII prefix and comparing byte by byte agree
    with Python's operations on code points, and white space is stripped by
    the encodings of the white-space code points.  Paths are POSIX paths
    without symbolic links.  [pathlib] and [hashlib] are taken as documented:
    [rglob] yields nothing from a start that is not a directory, and a hash
    object fed in chunks digests the bytes it was fed. *)

From Stdlib Require Import Ascii String List Sorted Permutation Lia.
From Stdlib.Strings Require Import Byte.
From stdpp Require Import base option list strings gmap sets.

Local Open Scope stdpp_scope.
Set Warnings "-register-all".

(** ** Python string primitives *)

Module PyStr.

(** [s.split(sep)] for a one-character separator: never empty, the empty
    string gives [[""]]. *)
Fixpoint split (sep : ascii) (s : string) : list string :=
  match s with
  | EmptyString => [""]
  | String c rest =>
      if decide (c = sep) then "" :: split sep rest
      else match split sep rest with
           | [] => [String c ""]
           | w :: ws => String c w :: ws
           end
  end.

(** [sep.join(parts)]. *)
Fixpoint join (sep : string) (parts : list string) : string :=
  match parts with
  | [] => ""
  | [w] => w
  | w :: ws => w +:+ sep +:+ join sep ws
  end.

(** [s.startswith(prefix)]. *)
Fixpoint startswith (s prefix : string) {struct prefix} : bool :=
  match prefix, s with
  | EmptyString, _ => true
  | String _ _, EmptyString => false
  | String a p, String b t => if decide (a = b) then startswith t p else false
  end.

(** [s[n:]] for [0 <= n]. *)
Fixpoint slice_from (n : nat) (s : string) : string :=
  match n, s with
  | O, _ => s
  | S _, EmptyString => ""
  | S k, String _ t => slice_from k t
  end.

(** [l[-n:]] and [l[:-n]] for [0 < n]. *)
Definition last_n {A} (n : nat) (l : list A) : list A := drop (length l - n) l.
Definition but_last_n {A} (n : nat) (l : list A) : list A := take (length l - n) l.

(** No occurrence of the character [c] in [s]. *)
Fixpoint free_of (c : ascii) (s : string) : bool :=
  match s with
  | EmptyString => true
  | String a t => if decide (a = c) then false else free_of c t
  end.

End PyStr.

(** ** Paths and upstream fixtures *)

(** A path is the list of its components below the root of the modelled
    file system. *)
Abbreviation Path := (list string).

(** [path.name]: the final component. *)
Definition path_name (p : Path) : string := List.last p "".

(** [str(path)]: the components joined by the separator.  All paths of one
    enumeration start with the same root, so their order does not depend on
    how the root itself is written. *)
Definition path_str (p : Path) : string := PyStr.join "/" p.

(** The frozen dataclass [UpstreamFixture] with its two properties. *)
Record UpstreamFixture := mkUpstreamFixture {
  package : string;
  path : Path
}.

Global Instance UpstreamFixture_eq_dec : EqDecision UpstreamFixture.
Proof. solve_decision. Defined.

Definition name (f : UpstreamFixture) : string := path_name (path f).

Definition case_id (f : UpstreamFixture) : string :=
  let parts := PyStr.split "." (name f) in
  if bool_decide (3 ≤ length parts) && bool_decide (PyStr.last_n 2 parts = ["chunks"; "txt"])
  then PyStr.join "." (PyStr.but_last_n 2 parts)
  else if bool_decide (2 ≤ length parts)
  then PyStr.join "." (PyStr.but_last_n 1 parts)
  else name f.

Definition normalize_case_id (package case_id : string) : string :=
  if bool_decide (package = "openai") && PyStr.startswith case_id "openai-"
  then PyStr.slice_from (String.length "openai-") case_id
  else if bool_decide (package = "xai") && PyStr.startswith case_id "xai-"
  then PyStr.slice_from (String.length "xai-") case_id
  else case_id.

Definition case_dir_exists (dir_names : gset string) (normalized_case_id : string) : bool :=
  if bool_decide (normalized_case_id ∈ dir_names) then true
  else
    let prefix := normalized_case_id +:+ "-" in
    existsb (fun name => PyStr.startswith name prefix) (elements dir_names).

(** ** The file system

    A tree of named entries.  A regular file carries its bytes, or [None]
    when it cannot be opened for reading; [Special] stands for an entry that
    is neither a regular file nor a directory.  The order of [entries] is the
    order in which the directory is scanned. *)

Inductive node :=
| File (content : option (list byte))
| Dir (entries : list (string * node))
| Special.

Fixpoint find_entry (c : string) (es : list (string * node)) : option node :=
  match es with
  | [] => None
  | (k, n) :: rest => if decide (k = c) then Some n else find_entry c rest
  end.

Fixpoint lookup_node (n : node) (p : Path) : option node :=
  match p with
  | [] => Some n
  | c :: rest =>
      match n with
      | Dir es => match find_entry c es with
                  | Some child => lookup_node child rest
                  | None => None
                  end
      | _ => None
      end
  end.

Definition is_dir (fs : node) (p : Path) : bool :=
  match lookup_node fs p with Some (Dir _) => true | _ => false end.

Definition is_file (fs : node) (p : Path) : bool :=
  match lookup_node fs p with Some (File _) => true | _ => false end.

(** No directory lists the same name twice. *)
Fixpoint wf (n : node) : bool :=
  match n with
  | Dir es => bool_decide (NoDup es.*1) && forallb (fun e => wf e.2) es
  | _ => true
  end.

(** [Path.rglob]: every directory at or below the start, parent first, and
    for each of them the children whose name matches the pattern.  A start
    that is not a directory gives nothing. *)
Fixpoint dirs_preorder (base : Path) (n : node) : list (Path * list (string * node)) :=
  match n with
  | Dir es => (base, es) :: flat_map (fun e => dirs_preorder (base ++ [e.1]) e.2) es
  | _ => []
  end.

Definition select_children (matches : string -> bool) (d : Path * list (string * node)) : list Path :=
  map (fun e : string * node => d.1 ++ [e.1]) (filter (fun e => Is_true (matches e.1)) d.2).

Definition walk (base : Path) (n : node) (matches : string -> bool) : list Path :=
  flat_map (select_children matches) (dirs_preorder base n).

Definition rglob (fs : node) (root : Path) (matches : string -> bool) : list Path :=
  match lookup_node fs root with
  | Some n => walk root n matches
  | None => []
  end.

Definition pat_all (_ : string) : bool := true.
Definition pat_fixtures (c : string) : bool := bool_decide (c = "__fixtures__").

(** [p.relative_to(root)]; [None] is the ValueError. *)
Fixpoint relative_to (p root : Path) : option Path :=
  match root, p with
  | [], _ => Some p
  | _ :: _, [] => None
  | r :: rs, c :: cs => if decide (r = c) then relative_to cs rs else None
  end.

(** [sorted(l, key=...)] with string keys: a stable sort. *)
Fixpoint insert_by {A} (key : A -> string) (x : A) (l : list A) : list A :=
  match l with
  | [] => [x]
  | y :: rest => if String.leb (key x) (key y) then x :: l else y :: insert_by key x rest
  end.

Fixpoint sorted_by {A} (key : A -> string) (l : list A) : list A :=
  match l with
  | [] => []
  | x :: rest => insert_by key x (sorted_by key rest)
  end.

(** The order the sort establishes. *)
Definition key_le {A} (key : A -> string) (a b : A) : Prop := String.le (key a) (key b).

(** ** The two walks *)

(** [fixtures_dir.relative_to(packages_root).parts[0]] inside the try block:
    both a failed [relative_to] and a missing first part give the sentinel. *)

Definition package_of (packages_root fixtures_dir : Path) : string :=
  match relative_to fixtures_dir packages_root ≫= head with
  | Some c => c
  | None => "unknown"
  end.

(** One round of the outer loop of [iter_upstream_fixtures]. *)
Definition fixtures_below (fs : node) (packages_root fixtures_dir : Path) : list UpstreamFixture :=
  if is_dir fs fixtures_dir then
    let package := package_of packages_root fixtures_dir in
    map (mkUpstreamFixture package)
        (filter (fun file => Is_true (is_file fs file)) (rglob fs fixtures_dir pat_all))
  else [].

Definition enumerate_upstream (fs : node) (packages_root : Path) : list UpstreamFixture :=
  flat_map (fixtures_below fs packages_root) (rglob fs packages_root pat_fixtures).

Definition iter_upstream_fixtures (fs : node) (ai_root : Path) : list UpstreamFixture :=
  let packages_root := ai_root ++ ["packages"] in
  sorted_by (fun f => path_str (path f)) (enumerate_upstream fs packages_root).

(** One round of the loop of [build_siumai_fixture_index]; the update of
    [file_index] is [setdefault(p.name, []).append(p)]. *)
Definition index_entry (fs : node) (acc : gmap string (list Path) * gset string) (p : Path)
  : gmap string (list Path) * gset string :=
  let '(file_index, dir_names) := acc in
  if is_dir fs p then (file_index, {[ path_name p ]} ∪ dir_names)
  else if is_file fs p
  then (<[ path_name p := default [] (file_index !! path_name p) ++ [p] ]> file_index, dir_names)
  else acc.

Definition build_siumai_fixture_index (fs : node) (siumai_root : Path)
  : gmap string (list Path) * gset string :=
  let fixtures_root := siumai_root ++ ["siumai"; "tests"; "fixtures"] in
  fold_left (index_entry fs) (rglob fs fixtures_root pat_all) (∅, ∅).

(** ** Hashing

    [hashlib.sha256()] is used through its object interface only. *)

Class Hasher := {
  hash_state : Type;
  h_new : hash_state;
  h_update : hash_state -> list byte -> hash_state;
  h_hexdigest : hash_state -> string
}.

Definition CHUNK : N := 1024 * 1024.

(** [f.read(n)]: at most [n] bytes, and what is left of the stream. *)
Fixpoint read (n : N) (data : list byte) : list byte * list byte :=
  match data with
  | [] => ([], [])
  | b :: rest =>
      if (n =? 0)%N then ([], data)
      else let '(chunk, rem) := read (N.pred n) rest in (b :: chunk, rem)
  end.

(** [iter(lambda: f.read(CHUNK), b"")]: the chunks up to the first empty one. *)
Fixpoint file_chunks (fuel : nat) (data : list byte) : list (list byte) :=
  match fuel with
  | O => []
  | S k => match read CHUNK data with
           | ([], _) => []
           | (chunk, rem) => chunk :: file_chunks k rem
           end
  end.

Definition sha256_bytes `{Hasher} (data : list byte) : string :=
  h_hexdigest (fold_left h_update (file_chunks (S (length data)) data) h_new).

(** ** Effects of [main]

    A computation takes the list of files opened so far and either raises
    ([None]) or returns a value with the extended list. *)

Definition M (A : Type) : Type := list Path -> option (A * list Path).

Global Instance M_ret : MRet M := fun A (a : A) opened => Some (a, opened).

Global Instance M_bind : MBind M := fun A B (k : A -> M B) (m : M A) opened =>
  match m opened with
  | Some (a, opened') => k a opened'
  | None => None
  end.

(** [sha256(path)]: opening anything but a readable regular file raises. *)
Definition sha256 `{Hasher} (fs : node) (p : Path) : M string :=
  fun opened => match lookup_node fs p with
                | Some (File (Some data)) => Some (sha256_bytes data, opened ++ [p])
                | _ => None
                end.

(** [[c for c in l if test(c)]] with an effectful test. *)
Fixpoint filterM {A} (test : A -> M bool) (l : list A) : M (list A) :=
  match l with
  | [] => mret []
  | c :: rest =>
      keep ← test c;
      kept ← filterM test rest;
      mret (if keep : bool then c :: kept else kept)
  end.

Fixpoint foldM {A S} (step : S -> A -> M S) (s : S) (l : list A) : M S :=
  match l with
  | [] => mret s
  | x :: rest => s' ← step s x; foldM step s' rest
  end.

(** ** The classification loop *)

Record Buckets := mkBuckets {
  covered_by_file : list UpstreamFixture;
  covered_by_file_multi : list (UpstreamFixture * list Path * list Path);
  covered_by_case_dir : list UpstreamFixture;
  missing : list UpstreamFixture;
  ambiguous : list (UpstreamFixture * list Path);
  drift : list (UpstreamFixture * Path)
}.

Definition no_buckets : Buckets := mkBuckets [] [] [] [] [] [].

(** [file_index.get(f.name, [])]. *)
Definition candidates_of (file_index : gmap string (list Path)) (f : UpstreamFixture) : list Path :=
  default [] (file_index !! name f).

(** The body of the loop over [upstream] in [main]: the three cases are
    [len(candidates) == 1], [len(candidates) > 1] and no candidate. *)
Definition classify `{Hasher} (fs : node) (file_index : gmap string (list Path))
    (dir_names : gset string) (b : Buckets) (f : UpstreamFixture) : M Buckets :=
  let candidates := candidates_of file_index f in
  match candidates with
  | [si] =>
      up ← sha256 fs (path f);
      lo ← sha256 fs si;
      mret (mkBuckets (covered_by_file b ++ [f]) (covered_by_file_multi b)
             (covered_by_case_dir b) (missing b) (ambiguous b)
             (if bool_decide (up = lo) then drift b else drift b ++ [(f, si)]))
  | _ :: _ :: _ =>
      up_hash ← sha256 fs (path f);
      matching ← filterM (fun c => h ← sha256 fs c; mret (bool_decide (h = up_hash))) candidates;
      match matching with
      | _ :: _ =>
          mret (mkBuckets (covered_by_file b) (covered_by_file_multi b ++ [(f, matching, candidates)])
                 (covered_by_case_dir b) (missing b) (ambiguous b) (drift b))
      | [] =>
          mret (mkBuckets (covered_by_file b) (covered_by_file_multi b)
                 (covered_by_case_dir b) (missing b) (ambiguous b ++ [(f, candidates)]) (drift b))
      end
  | [] =>
      let normalized_case_id := normalize_case_id (package f) (case_id f) in
      if case_dir_exists dir_names normalized_case_id
      then mret (mkBuckets (covered_by_file b) (covered_by_file_multi b)
                  (covered_by_case_dir b ++ [f]) (missing b) (ambiguous b) (drift b))
      else mret (mkBuckets (covered_by_file b) (covered_by_file_multi b)
                  (covered_by_case_dir b) (missing b ++ [f]) (ambiguous b) (drift b))
  end.

Definition audit `{Hasher} (fs : node) (file_index : gmap string (list Path))
    (dir_names : gset string) (upstream : list UpstreamFixture) : M Buckets :=
  foldM (classify fs file_index dir_names) no_buckets upstream.

(** [main] up to the report.  [ignore] is the set parsed from
    [--ignore-packages]; [upstream_of] is the list called [upstream]. *)
Definition upstream_of (ignore : gset string) (fs : node) (ai_root : Path) : list UpstreamFixture :=
  filter (fun f => package f ∉ ignore) (iter_upstream_fixtures fs ai_root).

Definition main `{Hasher} (ignore : gset string) (fs : node) (ai_root siumai_root : Path) : M Buckets :=
  let upstream := upstream_of ignore fs ai_root in
  let '(file_index, dir_names) := build_siumai_fixture_index fs siumai_root in
  audit fs file_index dir_names upstream.

(** [main], where the multi-match listing is printed: the candidates that are
    not in [matching]. *)
Definition other_candidates (matching all_cands : list Path) : list Path :=
  filter (fun c => c ∉ matching) all_cands.

(** ** Vocabulary of the statements *)

(** The digest of the file at [p], when it can be read. *)
Definition file_digest `{Hasher} (fs : node) (p : Path) : option string :=
  match lookup_node fs p with
  | Some (File (Some data)) => Some (sha256_bytes data)
  | _ => None
  end.

Definition readable (fs : node) (p : Path) : bool :=
  match lookup_node fs p with
  | Some (File (Some _)) => true
  | _ => false
  end.

(** The files one fixture makes [main] hash, in order. *)
Definition needs (file_index : gmap string (list Path)) (f : UpstreamFixture) : list Path :=
  match candidates_of file_index f with
  | [] => []
  | cs => path f :: cs
  end.

Definition all_readable (fs : node) (file_index : gmap string (list Path))
    (upstream : list UpstreamFixture) : bool :=
  forallb (fun f => forallb (readable fs) (needs file_index f)) upstream.

Definition buckets_app (a b : Buckets) : Buckets :=
  mkBuckets (covered_by_file a ++ covered_by_file b)
            (covered_by_file_multi a ++ covered_by_file_multi b)
            (covered_by_case_dir a ++ covered_by_case_dir b)
            (missing a ++ missing b)
            (ambiguous a ++ ambiguous b)
            (drift a ++ drift b).

(** What one fixture adds to the six lists when all its hashes succeed. *)
Definition contribution `{Hasher} (fs : node) (file_index : gmap string (list Path))
    (dir_names : gset string) (f : UpstreamFixture) : Buckets :=
  match candidates_of file_index f with
  | [si] =>
      mkBuckets [f] [] [] [] []
        (if bool_decide (file_digest fs (path f) = file_digest fs si) then [] else [(f, si)])
  | (_ :: _ :: _) as cs =>
      match filter (fun c => file_digest fs c = file_digest fs (path f)) cs with
      | [] => mkBuckets [] [] [] [] [(f, cs)] []
      | matching => mkBuckets [] [(f, matching, cs)] [] [] [] []
      end
  | [] =>
      if case_dir_exists dir_names (normalize_case_id (package f) (case_id f))
      then mkBuckets [] [] [f] [] [] []
      else mkBuckets [] [] [] [f] [] []
  end.

(** The six lists after a run in which no hash failed. *)
Definition outcome `{Hasher} (fs : node) (file_index : gmap string (list Path))
    (dir_names : gset string) (upstream : list UpstreamFixture) : Buckets :=
  fold_left buckets_app (map (contribution fs file_index dir_names) upstream) no_buckets.

(** The sum of the five coverage counts. *)
Definition classified (b : Buckets) : nat :=
  length (covered_by_file b) + length (covered_by_file_multi b)
  + length (covered_by_case_dir b) + length (ambiguous b) + length (missing b).

(** For each of the five coverage lists, whether the fixture is on it. *)
Definition bucket_flags (b : Buckets) (f : UpstreamFixture) : list bool :=
  [ bool_decide (f ∈ covered_by_file b);
    bool_decide (f ∈ (covered_by_file_multi b).*1.*1);
    bool_decide (f ∈ covered_by_case_dir b);
    bool_decide (f ∈ (ambiguous b).*1);
    bool_decide (f ∈ missing b) ].

(** The candidates whose digest is the upstream file's, and the others. *)
Definition matching_of `{Hasher} (fs : node) (f : UpstreamFixture) (cs : list Path) : list Path :=
  filter (fun c => file_digest fs c = file_digest fs (path f)) cs.

Definition unmatched_of `{Hasher} (fs : node) (f : UpstreamFixture) (cs : list Path) : list Path :=
  filter (fun c => file_digest fs c ≠ file_digest fs (path f)) cs.

(** Every regular file of the tree can be read. *)
Fixpoint fully_readable (n : node) : bool :=
  match n with
  | File content => bool_decide (is_Some content)
  | Dir es => forallb (fun e => fully_readable e.2) es
  | Special => true
  end.

(** The tree with every file's content forgotten. *)
Fixpoint erase (n : node) : node :=
  match n with
  | File _ => File None
  | Dir es => Dir (map (fun e => (e.1, erase e.2)) es)
  | Special => Special
  end.

(** The number of ancestors named [__fixtures__] of the entry at the
    relative path [rel]. *)
Definition fixtures_ancestors (rel : Path) : nat :=
  length (filter (fun c => c = "__fixtures__") (removelast rel)).

(** ** A stand-in hash object and a sample tree, for the closed examples *)

(** A hash object whose digest is the bytes themselves. *)
Definition plain_hasher : Hasher :=
  {| hash_state := list byte; h_new := []; h_update := fun h chunk => h ++ chunk;
     h_hexdigest := String.string_of_list_byte |}.

Definition bytes (s : string) : list byte := String.list_byte_of_string s.

(** An upstream checkout under [ai] and a local project under [si]: case
    directories, an identical and a drifted same-name file, same-name files
    in two places, and one [__fixtures__] directory inside another. *)
Definition sample_fs : node :=
  Dir [ ("ai", Dir [ ("packages", Dir [
          ("openai", Dir [ ("src", Dir [ ("__fixtures__", Dir [
              ("openai-foo.1.json", File (Some (bytes "a"))) ]) ]) ]);
          ("xai", Dir [ ("__fixtures__", Dir [
              ("xai-bar.1.json", File (Some (bytes "b"))) ]) ]);
          ("anthropic", Dir [ ("__fixtures__", Dir [
              ("baz.1.chunks.txt", File (Some (bytes "c")));
              ("drifted.json", File (Some (bytes "d")));
              ("multi.json", File (Some (bytes "m")));
              ("sub", Dir [ ("__fixtures__", Dir [
                  ("twice.json", File (Some (bytes "t"))) ]) ]) ]) ]);
          ("google", Dir [ ("__fixtures__", Dir [
              ("amb.json", File (Some (bytes "g")));
              ("gone.json", File (Some (bytes "h"))) ]) ]);
          ("langchain", Dir [ ("__fixtures__", Dir [
              ("skipped.json", File (Some (bytes "l"))) ]) ]) ]) ]);
        ("si", Dir [ ("siumai", Dir [ ("tests", Dir [ ("fixtures", Dir [
          ("foo.1", Dir [ ("anything.json", File (Some (bytes "z"))) ]);
          ("bar.1-json", Dir [ ("x", File (Some (bytes "y"))) ]);
          ("baz.1.chunks.txt", File (Some (bytes "c")));
          ("drifted.json", File (Some (bytes "D")));
          ("one", Dir [ ("multi.json", File (Some (bytes "m")));
                        ("amb.json", File (Some (bytes "1"))) ]);
          ("two", Dir [ ("multi.json", File (Some (bytes "M")));
                        ("amb.json", File (Some (bytes "2"))) ]) ]) ]) ]) ]) ].

Definition sample_ignore : gset string := {[ "langchain" ]}.
Definition sample_upstream : list UpstreamFixture := upstream_of sample_ignore sample_fs ["ai"].
Definition sample_index : gmap string (list Path) := (build_siumai_fixture_index sample_fs ["si"]).1.
Definition sample_dirs : gset string := (build_siumai_fixture_index sample_fs ["si"]).2.

(** Only same-name files in two places: nothing matches one to one. *)
Definition multi_only_fs : node :=
  Dir [ ("ai", Dir [ ("packages", Dir [
          ("anthropic", Dir [ ("__fixtures__", Dir [
              ("multi.json", File (Some (bytes "m"))) ]) ]) ]) ]);
        ("si", Dir [ ("siumai", Dir [ ("tests", Dir [ ("fixtures", Dir [
          ("one", Dir [ ("multi.json", File (Some (bytes "m"))) ]);
          ("two", Dir [ ("multi.json", File (Some (bytes "M"))) ]) ]) ]) ]) ]) ].

(** ** The command line and the report *)

(** A Python [str] is a sequence of code points; the embedding holds its
    UTF-8 bytes.  [utf8 cp] is the encoding of one code point. *)
Definition utf8 (cp : N) : list ascii :=
  map ascii_of_N
    (if (cp <? 0x80)%N then [cp]
     else if (cp <? 0x800)%N then [0xC0 + cp / 0x40; 0x80 + cp mod 0x40]%N
     else if (cp <? 0x10000)%N then
       [0xE0 + cp / 0x1000; 0x80 + (cp / 0x40) mod 0x40; 0x80 + cp mod 0x40]%N
     else
       [0xF0 + cp / 0x40000; 0x80 + (cp / 0x1000) mod 0x40;
        0x80 + (cp / 0x40) mod 0x40; 0x80 + cp mod 0x40]%N).

(** The code points for which [str.isspace] holds: the ones [str.strip]
    removes when it is called without an argument. *)
Definition white_space_code_points : list N :=
  [ 0x09; 0x0A; 0x0B; 0x0C; 0x0D; 0x1C; 0x1D; 0x1E; 0x1F; 0x20; 0x85; 0xA0; 0x1680;
    0x2000; 0x2001; 0x2002; 0x2003; 0x2004; 0x2005; 0x2006; 0x2007; 0x2008; 0x2009;
    0x200A; 0x2028; 0x2029; 0x202F; 0x205F; 0x3000 ]%N.

Definition white_space : list (list ascii) := map utf8 white_space_code_points.

(** Drop one leading character out of [ws], if the bytes start with one. *)
Definition strip_first (ws : list (list ascii)) (l : list ascii) : option (list ascii) :=
  match find (fun w => bool_decide (w `prefix_of` l)) ws with
  | Some w => Some (drop (length w) l)
  | None => None
  end.

(** Drop leading characters out of [ws] as long as there is one, at most [n]
    times; the length of the bytes is enough. *)
Fixpoint lstrip_n (ws : list (list ascii)) (n : nat) (l : list ascii) : list ascii :=
  match n with
  | O => l
  | S k => match strip_first ws l with
           | Some rest => lstrip_n ws k rest
           | None => l
           end
  end.

Definition lstrip (l : list ascii) : list ascii := lstrip_n white_space (length l) l.

(** The same from the right end: on the reversed bytes, with the encodings
    reversed. *)
Definition rstrip (l : list ascii) : list ascii :=
  reverse (lstrip_n (reverse <$> white_space) (length l) (reverse l)).

(** [s.strip()]. *)
Definition strip (s : string) : string :=
  string_of_list_ascii (rstrip (lstrip (list_ascii_of_string s))).

(** [{p.strip() for p in arg.split(",") if p.strip()}]. *)
Definition parse_ignore (arg : string) : gset string :=
  list_to_set (filter (fun p => p ≠ "") (map strip (PyStr.split "," arg))).

(** [l[:k]] for any integer [k]: a negative [k] counts from the end. *)
Definition slice_to {A} (k : Z) (l : list A) : list A :=
  if (0 <=? k)%Z then take (Z.to_nat k) l
  else take (length l - Z.to_nat (- k)) l.

Definition summarize_paths (paths : list Path) (limit : Z) : list string :=
  map path_str (slice_to limit paths).

(** A printed line is its f-string: literal text and interpolated values. *)
Inductive fragment :=
| Text (s : string)
| Int (n : nat)
| Str (s : string)
| Repr (l : list string).

Definition LF : string := String "010" "".

Definition heading (title : string) : list fragment :=
  [Text (LF +:+ "=== " +:+ title +:+ " (showing up to limit) ===")].

Definition drift_lines (e : UpstreamFixture * Path) : list (list fragment) :=
  [ [Text "- UP: "; Str (path_str (path e.1))]; [Text "  SI: "; Str (path_str e.2)] ].

Definition missing_lines (up : UpstreamFixture) : list (list fragment) :=
  [ [Text "- UP: "; Str (path_str (path up))] ].

Definition ambiguous_lines (e : UpstreamFixture * list Path) : list (list fragment) :=
  [Text "- UP: "; Str (path_str (path e.1))]
  :: map (fun si => [Text "  - SI: "; Str si]) (summarize_paths e.2 5).

Definition multi_lines (e : UpstreamFixture * list Path * list Path) : list (list fragment) :=
  let '(up, matching, all_cands) := e in
  [Text "- UP: "; Str (path_str (path up))]
  :: map (fun si => [Text "  - MATCH: "; Str si]) (summarize_paths matching 5)
  ++ map (fun si => [Text "  - OTHER: "; Str si])
         (summarize_paths (other_candidates matching all_cands) 5).

(** One section of the listing: nothing for an empty list, else the heading
    and the lines of the entries up to the limit. *)
Definition section {A} (title : string) (limit : Z) (entries : list A)
    (lines : A -> list (list fragment)) : list (list fragment) :=
  match entries with
  | [] => []
  | _ => heading title :: flat_map lines (slice_to limit entries)
  end.

(** Everything [main] prints after the loop. *)
Definition report (ignore : gset string) (limit : Z) (upstream : list UpstreamFixture)
    (b : Buckets) : list (list fragment) :=
  [ [Text "Upstream fixtures (excluding "; Repr (sorted_by id (elements ignore));
     Text "): "; Int (length upstream)];
    [Text "Covered by file match: "; Int (length (covered_by_file b))];
    [Text "Covered by file match (multi): "; Int (length (covered_by_file_multi b))];
    [Text "Covered by case-dir match: "; Int (length (covered_by_case_dir b))];
    [Text "Ambiguous file matches: "; Int (length (ambiguous b))];
    [Text "Missing: "; Int (length (missing b))];
    [Text "Drift (hash mismatch on 1:1 file match): "; Int (length (drift b))] ]
  ++ section "Drift" limit (drift b) drift_lines
  ++ section "Missing" limit (missing b) missing_lines
  ++ section "Ambiguous" limit (ambiguous b) ambiguous_lines
  ++ section "Multi-match (hash OK)" limit (covered_by_file_multi b) multi_lines.





(** The parsed arguments, and [main] as a whole: the printed lines and the
    return value. *)
Record Args := mkArgs {
  arg_ai_root : Path;
  arg_siumai_root : Path;
  arg_ignore_packages : string;
  arg_limit : Z
}.

Definition main_cli `{Hasher} (args : Args) (fs : node) : M (list (list fragment) * Z) :=
  let ignore := parse_ignore (arg_ignore_packages args) in
  let upstream := upstream_of ignore fs (arg_ai_root args) in
  b ← main ignore fs (arg_ai_root args) (arg_siumai_root args);
  mret (report ignore (arg_limit args) upstream b, 0%Z).

(** * Facts about the string primitives *)

Lemma app_nil_l_str (s : string) : "" +:+ s = s.
Proof. reflexivity. Qed.

Lemma app_cons_str (c : ascii) (s t : string) : String c s +:+ t = String c (s +:+ t).
Proof. reflexivity. Qed.

Lemma app_assoc_str (a b c : string) : (a +:+ b) +:+ c = a +:+ (b +:+ c).
Proof. induction a as [|x a IH]; [done|]. rewrite !app_cons_str. by rewrite IH. Qed.

Lemma app_nil_r_str (s : string) : s +:+ "" = s.
Proof. induction s as [|x s IH]; [done|]. rewrite app_cons_str. by rewrite IH. Qed.

Lemma app_length_str (a b : string) : String.length (a +:+ b) = String.length a + String.length b.
Proof. induction a as [|x a IH]; [done|]. rewrite app_cons_str. simpl. by rewrite IH. Qed.

Lemma split_not_nil sep s : PyStr.split sep s ≠ [].
Proof.
  induction s as [|c s IH]; simpl; [done|].
  case_decide; [done|]. by destruct (PyStr.split sep s).
Qed.

Lemma join_cons sep w ws :
  ws ≠ [] -> PyStr.join sep (w :: ws) = w +:+ sep +:+ PyStr.join sep ws.
Proof. by destruct ws. Qed.

(** Joining what [split] produced gives the string back. *)
Lemma join_split sep s : PyStr.join (String sep "") (PyStr.split sep s) = s.
Proof.
  induction s as [|c s IH]; [done|]. simpl PyStr.split.
  pose proof (split_not_nil sep s) as Hne.
  case_decide as Hc.
  - subst c. rewrite join_cons by done. by rewrite IH.
  - destruct (PyStr.split sep s) as [|w [|w' ws]]; [done|..].
    + simpl in *. by rewrite IH.
    + rewrite join_cons by done. rewrite join_cons in IH by done.
      rewrite app_cons_str. by rewrite IH.
Qed.

Lemma split_free sep w : PyStr.free_of sep w = true -> PyStr.split sep w = [w].
Proof.
  induction w as [|c w IH]; simpl; [done|].
  case_decide; [done|]. intros Hw. by rewrite IH.
Qed.

Lemma split_app sep a b :
  PyStr.split sep (a +:+ String sep b) = PyStr.split sep a ++ PyStr.split sep b.
Proof.
  induction a as [|c a IH].
  - rewrite app_nil_l_str. simpl. by rewrite decide_True.
  - rewrite app_cons_str. simpl. case_decide.
    + by rewrite IH.
    + rewrite IH. pose proof (split_not_nil sep a).
      by destruct (PyStr.split sep a).
Qed.

(** Splitting a join of separator-free segments gives the segments back. *)
Lemma split_join sep parts :
  parts ≠ [] -> Forall (fun w => PyStr.free_of sep w = true) parts ->
  PyStr.split sep (PyStr.join (String sep "") parts) = parts.
Proof.
  induction parts as [|w ws IH]; [done|]. intros _ Hall.
  apply Forall_cons in Hall as [Hw Hws].
  destruct ws as [|w' ws]; [by apply split_free|].
  rewrite join_cons by done. rewrite app_cons_str, app_nil_l_str, split_app.
  rewrite split_free by done. rewrite IH by done. done.
Qed.

Lemma startswith_spec s p :
  PyStr.startswith s p = true <-> exists rest, s = p +:+ rest.
Proof.
  revert s. induction p as [|a p IH]; intros s; simpl.
  - split; [intros _; by exists s|done].
  - destruct s as [|b s].
    + split; [done|]. intros [rest Hr]. by rewrite app_cons_str in Hr.
    + case_decide as Hab.
      * subst b. rewrite IH. split; intros [rest Hr]; exists rest.
        -- rewrite app_cons_str. by rewrite Hr.
        -- rewrite app_cons_str in Hr. by injection Hr.
      * split; [done|]. intros [rest Hr]. rewrite app_cons_str in Hr.
        injection Hr as Hb _. by destruct Hab.
Qed.

Lemma slice_from_app p rest : PyStr.slice_from (String.length p) (p +:+ rest) = rest.
Proof. induction p as [|a p IH]; [by destruct rest|]. by rewrite app_cons_str. Qed.

Lemma but_last_n_app {A} n (l tl : list A) :
  length tl = n -> PyStr.but_last_n n (l ++ tl) = l.
Proof.
  intros <-. unfold PyStr.but_last_n. rewrite length_app.
  replace (length l + length tl - length tl) with (length l) by lia.
  by rewrite take_app_length.
Qed.

Lemma last_n_app {A} n (l tl : list A) :
  length tl = n -> PyStr.last_n n (l ++ tl) = tl.
Proof.
  intros <-. unfold PyStr.last_n. rewrite length_app.
  replace (length l + length tl - length tl) with (length l) by lia.
  by rewrite drop_app_length.
Qed.

(** * Case ids *)

Lemma case_id_unfold f :
  case_id f =
  let parts := PyStr.split "." (name f) in
  if bool_decide (3 ≤ length parts) && bool_decide (PyStr.last_n 2 parts = ["chunks"; "txt"])
  then PyStr.join "." (PyStr.but_last_n 2 parts)
  else if bool_decide (2 ≤ length parts)
  then PyStr.join "." (PyStr.but_last_n 1 parts)
  else name f.
Proof. reflexivity. Qed.

(** Stripping the streaming suffix gives back exactly the stem, whatever the
    stem contains. *)
Lemma case_id_chunks_stem f stem :
  name f = stem +:+ ".chunks.txt" -> case_id f = stem.
Proof.
  intros Hn. rewrite case_id_unfold, Hn. cbv zeta.
  change (stem +:+ ".chunks.txt") with (stem +:+ String "." "chunks.txt").
  rewrite split_app.
  change (PyStr.split "." "chunks.txt") with ["chunks"; "txt"].
  rewrite (last_n_app 2 (PyStr.split "." stem) ["chunks"; "txt"]) by done.
  rewrite (but_last_n_app 2 (PyStr.split "." stem) ["chunks"; "txt"]) by done.
  rewrite length_app. pose proof (split_not_nil "." stem) as Hne.
  destruct (PyStr.split "." stem) as [|w ws] eqn:Hs; [done|].
  rewrite bool_decide_true by (simpl; lia).
  rewrite bool_decide_true by done. simpl andb. cbv iota.
  rewrite <- Hs. apply join_split.
Qed.

(** C4, as amended: for a file name made of the dot-free segments [segs],
    the case id is the segments before a final [chunks], [txt] pair when
    there are at least three segments ending in that pair; otherwise all
    segments but the last when there are at least two; and the name itself
    when there is one segment. *)
Theorem case_id_by_segments (f : UpstreamFixture) (segs : list string) :
  segs ≠ [] ->
  Forall (fun w => PyStr.free_of "." w = true) segs ->
  name f = PyStr.join "." segs ->
  (3 ≤ length segs ∧ PyStr.last_n 2 segs = ["chunks"; "txt"] ->
     case_id f = PyStr.join "." (PyStr.but_last_n 2 segs)) ∧
  (2 ≤ length segs ∧ ¬ (3 ≤ length segs ∧ PyStr.last_n 2 segs = ["chunks"; "txt"]) ->
     case_id f = PyStr.join "." (PyStr.but_last_n 1 segs)) ∧
  (length segs = 1 -> case_id f = name f) ∧
  case_id (mkUpstreamFixture (package f) [ "anthropic-json-tool.1.chunks.txt" ])
    = "anthropic-json-tool.1".
Proof.
  intros Hne Hfree Hname.
  rewrite case_id_unfold, Hname. cbv zeta.
  rewrite (split_join "." segs Hne Hfree).
  split; [|split; [|split]].
  - intros [Hlen Hlast].
    rewrite (bool_decide_true (3 ≤ length segs)) by done.
    by rewrite (bool_decide_true (PyStr.last_n 2 segs = _)) by done.
  - intros [Hlen Hnot].
    rewrite (bool_decide_true (2 ≤ length segs)) by done.
    destruct (bool_decide (3 ≤ length segs)) eqn:H3;
      destruct (bool_decide (PyStr.last_n 2 segs = ["chunks"; "txt"])) eqn:Hl; simpl;
      try done.
    apply bool_decide_eq_true in H3, Hl. by destruct Hnot.
  - intros Hlen.
    rewrite (bool_decide_false (3 ≤ length segs)) by lia.
    by rewrite (bool_decide_false (2 ≤ length segs)) by lia.
  - by apply case_id_chunks_stem.
Qed.

Lemma case_id_by_segments_witness :
  case_id (mkUpstreamFixture "anthropic" ["fx"; "a.b.chunks.txt"]) = "a.b" ∧
  case_id (mkUpstreamFixture "anthropic" ["fx"; "chunks.txt"]) = "chunks".
Proof.
  split.
  - refine (proj1 (case_id_by_segments
              (mkUpstreamFixture "anthropic" ["fx"; "a.b.chunks.txt"])
              ["a"; "b"; "chunks"; "txt"] _ _ _) _).
    + done.
    + repeat constructor.
    + reflexivity.
    + split; [simpl; lia | reflexivity].
  - refine (proj1 (proj2 (case_id_by_segments
              (mkUpstreamFixture "anthropic" ["fx"; "chunks.txt"])
              ["chunks"; "txt"] _ _ _)) _).
    + done.
    + repeat constructor.
    + reflexivity.
    + split; [simpl; lia | intros [Hlen _]; simpl in Hlen; lia].
Defined.

(** The file name [chunks.txt] has exactly the two segments [chunks], [txt],
    yet its case id is [chunks], not the (empty) join of the segments before
    them. *)
Lemma case_id_two_segments_counterexample :
  PyStr.split "." (name (mkUpstreamFixture "anthropic" ["fx"; "chunks.txt"])) = ["chunks"; "txt"] ∧
  PyStr.last_n 2 (PyStr.split "." (name (mkUpstreamFixture "anthropic" ["fx"; "chunks.txt"])))
    = ["chunks"; "txt"] ∧
  case_id (mkUpstreamFixture "anthropic" ["fx"; "chunks.txt"]) = "chunks" ∧
  case_id (mkUpstreamFixture "anthropic" ["fx"; "chunks.txt"])
    ≠ PyStr.join "." (PyStr.but_last_n 2
        (PyStr.split "." (name (mkUpstreamFixture "anthropic" ["fx"; "chunks.txt"])))).
Proof. repeat split; try reflexivity. intros Heq. vm_compute in Heq. discriminate. Qed.

(** * Prefix stripping *)

Lemma startswith_slice s p :
  PyStr.startswith s p = true -> s = p +:+ PyStr.slice_from (String.length p) s.
Proof.
  intros [rest ->]%startswith_spec. by rewrite slice_from_app.
Qed.

Lemma normalize_case_id_unfold p c :
  normalize_case_id p c =
  if bool_decide (p = "openai") && PyStr.startswith c "openai-"
  then PyStr.slice_from (String.length "openai-") c
  else if bool_decide (p = "xai") && PyStr.startswith c "xai-"
  then PyStr.slice_from (String.length "xai-") c
  else c.
Proof. reflexivity. Qed.

Lemma normalize_case_id_other p c :
  ¬ (p = "openai" ∧ PyStr.startswith c "openai-" = true) ->
  ¬ (p = "xai" ∧ PyStr.startswith c "xai-" = true) ->
  normalize_case_id p c = c.
Proof.
  intros Ho Hx. rewrite normalize_case_id_unfold.
  destruct (decide (p = "openai")) as [-> | Hp].
  - destruct (PyStr.startswith c "openai-") eqn:Hs; [by destruct Ho|].
    by rewrite (bool_decide_false ("openai" = "xai")) by done.
  - rewrite (bool_decide_false (p = "openai")) by done. cbn [andb].
    destruct (decide (p = "xai")) as [-> | Hq].
    + destruct (PyStr.startswith c "xai-") eqn:Hs; [by destruct Hx|].
      by rewrite andb_false_r.
    + by rewrite (bool_decide_false (p = "xai")) by done.
Qed.

Lemma normalize_case_id_strips p c :
  (p = "openai" ∨ p = "xai") -> PyStr.startswith c (p +:+ "-") = true ->
  c = (p +:+ "-") +:+ normalize_case_id p c.
Proof.
  intros [-> | ->] Hs; rewrite normalize_case_id_unfold.
  - change ("openai" +:+ "-") with "openai-" in *. rewrite Hs. simpl andb. cbv iota.
    by apply startswith_slice.
  - change ("xai" +:+ "-") with "xai-" in *. rewrite bool_decide_false by done.
    rewrite Hs. simpl andb. cbv iota. by apply startswith_slice.
Qed.

(** C5, as amended: the prefix is stripped only for its own package and every
    other input passes through unchanged; one call strips one prefix, so a
    second call changes nothing exactly when the result of the first does not
    start with the package's prefix again. *)
Theorem normalize_case_id_scoped :
  (∀ rest, normalize_case_id "openai" ("openai-" +:+ rest) = rest) ∧
  (∀ rest, normalize_case_id "xai" ("xai-" +:+ rest) = rest) ∧
  (∀ p c, ¬ (p = "openai" ∧ PyStr.startswith c "openai-" = true) ->
          ¬ (p = "xai" ∧ PyStr.startswith c "xai-" = true) ->
          normalize_case_id p c = c) ∧
  (∀ p c, normalize_case_id p (normalize_case_id p c) = normalize_case_id p c
          <-> ¬ ((p = "openai" ∨ p = "xai")
                 ∧ PyStr.startswith (normalize_case_id p c) (p +:+ "-") = true)).
Proof.
  split; [|split; [|split]].
  - intros rest. rewrite normalize_case_id_unfold.
    assert (PyStr.startswith ("openai-" +:+ rest) "openai-" = true) as ->
      by (apply startswith_spec; by exists rest).
    simpl andb. cbv iota. apply slice_from_app.
  - intros rest. rewrite normalize_case_id_unfold.
    rewrite bool_decide_false by done.
    assert (PyStr.startswith ("xai-" +:+ rest) "xai-" = true) as ->
      by (apply startswith_spec; by exists rest).
    simpl andb. cbv iota. apply slice_from_app.
  - apply normalize_case_id_other.
  - intros p c. set (c' := normalize_case_id p c). split.
    + intros Hidem [Hp Hs].
      pose proof (normalize_case_id_strips p c' Hp Hs) as Hc'.
      rewrite Hidem in Hc'. apply (f_equal String.length) in Hc'.
      rewrite app_length_str in Hc'.
      destruct Hp as [-> | ->]; simpl in Hc'; lia.
    + intros Hnot. apply normalize_case_id_other.
      * intros [-> Hs]. apply Hnot. split; [by left|done].
      * intros [-> Hs]. apply Hnot. split; [by right|done].
Qed.

(** Two stacked prefixes: the second call strips again. *)
Lemma normalize_case_id_twice_counterexample :
  normalize_case_id "openai" "openai-openai-foo.1" = "openai-foo.1" ∧
  normalize_case_id "openai" (normalize_case_id "openai" "openai-openai-foo.1") = "foo.1" ∧
  normalize_case_id "openai" (normalize_case_id "openai" "openai-openai-foo.1")
    ≠ normalize_case_id "openai" "openai-openai-foo.1".
Proof. repeat split; try reflexivity. intros Heq. vm_compute in Heq. discriminate. Qed.

(** * Case directories *)

(** C6: [case_dir_exists] holds exactly when the id is a directory name or
    some directory name starts with the id followed by a hyphen. *)
Theorem case_dir_exists_iff (dir_names : gset string) (normalized_case_id : string) :
  case_dir_exists dir_names normalized_case_id = true
  <-> normalized_case_id ∈ dir_names
      ∨ ∃ d rest, d ∈ dir_names ∧ d = (normalized_case_id +:+ "-") +:+ rest.
Proof.
  unfold case_dir_exists. case_bool_decide as Hin.
  - split; [by left|done].
  - rewrite existsb_exists. split.
    + intros (d & Hd & Hs). right. apply startswith_spec in Hs as [rest ->].
      exists ((normalized_case_id +:+ "-") +:+ rest), rest. split; [|done].
      apply elem_of_elements. by apply list_elem_of_In.
    + intros [Hmem | (d & rest & Hd & ->)]; [done|].
      exists ((normalized_case_id +:+ "-") +:+ rest). split.
      * apply list_elem_of_In. by apply elem_of_elements.
      * apply startswith_spec. by exists rest.
Qed.

(** * The classification loop *)

Section Loop.
Context `{Hasher}.
Variables (fs : node) (file_index : gmap string (list Path)) (dir_names : gset string).

Lemma bind_Some {A B} (m : M A) (k : A -> M B) o a o' :
  m o = Some (a, o') -> (x ← m; k x) o = k a o'.
Proof. intros Hm. unfold mbind, M_bind. by rewrite Hm. Qed.

Lemma readable_digest p : readable fs p = true -> is_Some (file_digest fs p).
Proof.
  unfold readable, file_digest.
  by destruct (lookup_node fs p) as [[[data|]|es|]|].
Qed.

Lemma sha256_readable p d o :
  file_digest fs p = Some d -> sha256 fs p o = Some (d, o ++ [p]).
Proof.
  unfold file_digest, sha256.
  destruct (lookup_node fs p) as [[[data|]|es|]|]; try done. by intros [= ->].
Qed.

Lemma sha256_unreadable p o : readable fs p = false -> sha256 fs p o = None.
Proof.
  unfold readable, sha256.
  by destruct (lookup_node fs p) as [[[data|]|es|]|].
Qed.

Lemma filterM_matching up cs o :
  forallb (readable fs) cs = true ->
  filterM (fun c => h ← sha256 fs c; mret (bool_decide (h = up))) cs o
  = Some (filter (fun c => file_digest fs c = Some up) cs, o ++ cs).
Proof.
  revert o. induction cs as [|c cs IH]; intros o Hr.
  - simpl. unfold mret, M_ret. by rewrite app_nil_r.
  - simpl in Hr. apply andb_prop in Hr as [Hc Hcs].
    destruct (readable_digest c Hc) as [d Hd].
    cbn [filterM].
    rewrite (bind_Some _ _ o (bool_decide (d = up)) (o ++ [c])).
    2:{ by rewrite (bind_Some _ _ o d (o ++ [c]) (sha256_readable c d o Hd)). }
    rewrite (bind_Some _ _ _ _ _ (IH (o ++ [c]) Hcs)).
    unfold mret, M_ret. rewrite <- app_assoc. simpl.
    rewrite filter_cons, Hd. f_equal. f_equal.
    case_bool_decide as Hb; case_decide as Hdec; try done.
    + subst. done.
    + injection Hdec as ->. done.
Qed.

(** One pass of the loop body, when every file it hashes can be read. *)
Lemma classify_readable b f o :
  forallb (readable fs) (needs file_index f) = true ->
  classify fs file_index dir_names b f o
  = Some (buckets_app b (contribution fs file_index dir_names f), o ++ needs file_index f).
Proof.
  unfold classify, contribution, needs, buckets_app.
  destruct (candidates_of file_index f) as [|c1 [|c2 cs]] eqn:Hc; intros Hr.
  - destruct (case_dir_exists _ _); unfold mret, M_ret; simpl; by rewrite !app_nil_r.
  - simpl in Hr. apply andb_prop in Hr as [Hup Hr]. apply andb_prop in Hr as [Hlo _].
    destruct (readable_digest _ Hup) as [du Hdu].
    destruct (readable_digest _ Hlo) as [dl Hdl].
    rewrite (bind_Some _ _ _ _ _ (sha256_readable _ _ o Hdu)).
    rewrite (bind_Some _ _ _ _ _ (sha256_readable _ _ _ Hdl)).
    unfold mret, M_ret. simpl. rewrite Hdu, Hdl, !app_nil_r, <- app_assoc. simpl.
    case_bool_decide as Hb; case_bool_decide as Hb'.
    + by rewrite app_nil_r.
    + by subst.
    + by injection Hb' as ->.
    + done.
  - cbn [forallb] in Hr. apply andb_prop in Hr as [Hup Hr].
    destruct (readable_digest _ Hup) as [du Hdu].
    rewrite (bind_Some _ _ _ _ _ (sha256_readable _ _ o Hdu)).
    rewrite (bind_Some _ _ _ _ _ (filterM_matching du (c1 :: c2 :: cs) _ Hr)).
    rewrite Hdu, <- app_assoc. simpl app at 2.
    destruct (filter _ (c1 :: c2 :: cs)) as [|m ms];
      unfold mret, M_ret; simpl; by rewrite !app_nil_r.
Qed.

(** A fixture without a same-name candidate opens no file, and its step
    cannot fail. *)
Lemma classify_no_candidate b f o :
  candidates_of file_index f = [] ->
  ∃ b', classify fs file_index dir_names b f o = Some (b', o).
Proof.
  intros Hc. unfold classify. rewrite Hc.
  destruct (case_dir_exists _ _); by eexists.
Qed.

Lemma foldM_readable b upstream o :
  all_readable fs file_index upstream = true ->
  foldM (classify fs file_index dir_names) b upstream o
  = Some (fold_left buckets_app (map (contribution fs file_index dir_names) upstream) b,
          o ++ flat_map (needs file_index) upstream).
Proof.
  revert b o. induction upstream as [|f fsq IH]; intros b o Hr.
  - simpl. unfold mret, M_ret. by rewrite app_nil_r.
  - unfold all_readable in Hr. cbn [forallb] in Hr. apply andb_prop in Hr as [Hf Hrest].
    cbn [foldM]. rewrite (bind_Some _ _ _ _ _ (classify_readable b f o Hf)).
    rewrite (IH _ _ Hrest). simpl. by rewrite <- app_assoc.
Qed.

End Loop.

(** ** The six lists after a run without a failed hash *)

Section Outcome.
Context `{Hasher}.
Variables (fs : node) (file_index : gmap string (list Path)) (dir_names : gset string).

Local Abbreviation final := (outcome fs file_index dir_names).

Lemma audit_readable upstream :
  all_readable fs file_index upstream = true ->
  audit fs file_index dir_names upstream []
  = Some (final upstream, flat_map (needs file_index) upstream).
Proof. intros Hr. unfold audit. by rewrite (foldM_readable _ _ _ _ _ _ Hr). Qed.

Lemma fold_buckets_proj {X} (proj : Buckets -> list X) :
  (∀ a b, proj (buckets_app a b) = proj a ++ proj b) ->
  ∀ ds b, proj (fold_left buckets_app ds b) = proj b ++ flat_map proj ds.
Proof.
  intros Hproj ds. induction ds as [|d ds IH]; intros b; simpl.
  - by rewrite app_nil_r.
  - by rewrite IH, Hproj, <- app_assoc.
Qed.

Lemma outcome_elem {X} (proj : Buckets -> list X) upstream x :
  (∀ a b, proj (buckets_app a b) = proj a ++ proj b) -> proj no_buckets = [] ->
  x ∈ proj (final upstream)
  <-> ∃ g, g ∈ upstream ∧ x ∈ proj (contribution fs file_index dir_names g).
Proof.
  intros Hproj Hnil. unfold outcome. rewrite (fold_buckets_proj proj Hproj), Hnil.
  simpl. rewrite list_elem_of_In, in_flat_map. split.
  - intros (d & Hd & Hx). apply in_map_iff in Hd as (g & <- & Hg).
    exists g. by rewrite !list_elem_of_In.
  - intros (g & Hg & Hx). exists (contribution fs file_index dir_names g).
    rewrite <- !list_elem_of_In. split; [|done]. by apply list_elem_of_fmap_2.
Qed.

Lemma classified_app a b : classified (buckets_app a b) = classified a + classified b.
Proof. unfold classified, buckets_app. simpl. rewrite !length_app. lia. Qed.

Lemma classified_contribution f : classified (contribution fs file_index dir_names f) = 1.
Proof.
  unfold contribution.
  destruct (candidates_of file_index f) as [|c1 [|c2 cs]].
  - by destruct (case_dir_exists _ _).
  - done.
  - by destruct (filter _ _).
Qed.

Lemma classified_fold upstream b :
  classified (fold_left buckets_app (map (contribution fs file_index dir_names) upstream) b)
  = classified b + length upstream.
Proof.
  revert b. induction upstream as [|f rest IH]; intros b; simpl; [lia|].
  rewrite IH, classified_app, classified_contribution. lia.
Qed.

Lemma classified_outcome upstream : classified (final upstream) = length upstream.
Proof. unfold outcome. by rewrite classified_fold. Qed.

Lemma in_covered_by_file upstream f :
  f ∈ covered_by_file (final upstream)
  <-> f ∈ upstream ∧ ∃ si, candidates_of file_index f = [si].
Proof.
  rewrite (outcome_elem covered_by_file) by done. split.
  - intros (g & Hg & Hf). unfold contribution in Hf.
    destruct (candidates_of file_index g) as [|c1 [|c2 cs]] eqn:Hc.
    + destruct (case_dir_exists _ _); simpl in Hf; by apply elem_of_nil in Hf.
    + simpl in Hf. apply list_elem_of_singleton in Hf as ->. eauto.
    + destruct (filter _ _); simpl in Hf; by apply elem_of_nil in Hf.
  - intros (Hf & si & Hc). exists f. split; [done|].
    unfold contribution. rewrite Hc. simpl. by apply list_elem_of_singleton.
Qed.

Lemma in_drift upstream f si :
  (f, si) ∈ drift (final upstream)
  <-> f ∈ upstream ∧ candidates_of file_index f = [si]
      ∧ file_digest fs (path f) ≠ file_digest fs si.
Proof.
  rewrite (outcome_elem drift) by done. split.
  - intros (g & Hg & Hf). unfold contribution in Hf.
    destruct (candidates_of file_index g) as [|c1 [|c2 cs]] eqn:Hc.
    + destruct (case_dir_exists _ _); simpl in Hf; by apply elem_of_nil in Hf.
    + simpl in Hf. case_bool_decide as Hd; [by apply elem_of_nil in Hf|].
      apply list_elem_of_singleton in Hf as [= -> ->]. done.
    + destruct (filter _ _); simpl in Hf; by apply elem_of_nil in Hf.
  - intros (Hf & Hc & Hd). exists f. split; [done|].
    unfold contribution. rewrite Hc. simpl. rewrite bool_decide_false by done.
    by apply list_elem_of_singleton.
Qed.

Lemma in_covered_by_file_multi upstream f matching cs :
  (f, matching, cs) ∈ covered_by_file_multi (final upstream)
  <-> f ∈ upstream ∧ candidates_of file_index f = cs ∧ 2 ≤ length cs
      ∧ matching = filter (fun c => file_digest fs c = file_digest fs (path f)) cs
      ∧ matching ≠ [].
Proof.
  rewrite (outcome_elem covered_by_file_multi) by done. split.
  - intros (g & Hg & Hf). unfold contribution in Hf.
    destruct (candidates_of file_index g) as [|c1 [|c2 cs']] eqn:Hc.
    + destruct (case_dir_exists _ _); simpl in Hf; by apply elem_of_nil in Hf.
    + simpl in Hf. by apply elem_of_nil in Hf.
    + destruct (filter _ (c1 :: c2 :: cs')) as [|m ms] eqn:Hm; simpl in Hf;
        [by apply elem_of_nil in Hf|].
      apply list_elem_of_singleton in Hf as [= -> -> ->].
      repeat split; try done. simpl. lia.
  - intros (Hf & Hc & Hlen & -> & Hne). exists f. split; [done|].
    unfold contribution. rewrite Hc.
    destruct cs as [|c1 [|c2 cs']]; [simpl in Hlen; lia..|].
    destruct (filter _ (c1 :: c2 :: cs')) as [|m ms] eqn:Hm; [done|].
    simpl. by apply list_elem_of_singleton.
Qed.

Lemma in_ambiguous upstream f cs :
  (f, cs) ∈ ambiguous (final upstream)
  <-> f ∈ upstream ∧ candidates_of file_index f = cs ∧ 2 ≤ length cs
      ∧ filter (fun c => file_digest fs c = file_digest fs (path f)) cs = [].
Proof.
  rewrite (outcome_elem ambiguous) by done. split.
  - intros (g & Hg & Hf). unfold contribution in Hf.
    destruct (candidates_of file_index g) as [|c1 [|c2 cs']] eqn:Hc.
    + destruct (case_dir_exists _ _); simpl in Hf; by apply elem_of_nil in Hf.
    + simpl in Hf. by apply elem_of_nil in Hf.
    + destruct (filter _ (c1 :: c2 :: cs')) as [|m ms] eqn:Hm; simpl in Hf;
        [|by apply elem_of_nil in Hf].
      apply list_elem_of_singleton in Hf as [= -> ->].
      repeat split; try done. simpl. lia.
  - intros (Hf & Hc & Hlen & Hnone). exists f. split; [done|].
    unfold contribution. rewrite Hc.
    destruct cs as [|c1 [|c2 cs']]; [simpl in Hlen; lia..|].
    rewrite Hnone. simpl. by apply list_elem_of_singleton.
Qed.

Lemma in_covered_by_case_dir upstream f :
  f ∈ covered_by_case_dir (final upstream)
  <-> f ∈ upstream ∧ candidates_of file_index f = []
      ∧ case_dir_exists dir_names (normalize_case_id (package f) (case_id f)) = true.
Proof.
  rewrite (outcome_elem covered_by_case_dir) by done. split.
  - intros (g & Hg & Hf). unfold contribution in Hf.
    destruct (candidates_of file_index g) as [|c1 [|c2 cs']] eqn:Hc.
    + destruct (case_dir_exists _ _) eqn:Hd; simpl in Hf;
        [|by apply elem_of_nil in Hf].
      by apply list_elem_of_singleton in Hf as ->.
    + simpl in Hf. by apply elem_of_nil in Hf.
    + destruct (filter _ _); simpl in Hf; by apply elem_of_nil in Hf.
  - intros (Hf & Hc & Hd). exists f. split; [done|].
    unfold contribution. rewrite Hc, Hd. simpl. by apply list_elem_of_singleton.
Qed.

Lemma in_missing upstream f :
  f ∈ missing (final upstream)
  <-> f ∈ upstream ∧ candidates_of file_index f = []
      ∧ case_dir_exists dir_names (normalize_case_id (package f) (case_id f)) = false.
Proof.
  rewrite (outcome_elem missing) by done. split.
  - intros (g & Hg & Hf). unfold contribution in Hf.
    destruct (candidates_of file_index g) as [|c1 [|c2 cs']] eqn:Hc.
    + destruct (case_dir_exists _ _) eqn:Hd; simpl in Hf;
        [by apply elem_of_nil in Hf|].
      by apply list_elem_of_singleton in Hf as ->.
    + simpl in Hf. by apply elem_of_nil in Hf.
    + destruct (filter _ _); simpl in Hf; by apply elem_of_nil in Hf.
  - intros (Hf & Hc & Hd). exists f. split; [done|].
    unfold contribution. rewrite Hc, Hd. simpl. by apply list_elem_of_singleton.
Qed.

End Outcome.

(** ** Which lists a fixture is on *)

Section Flags.
Context `{Hasher}.
Variables (fs : node) (file_index : gmap string (list Path)) (dir_names : gset string).

Local Abbreviation final := (outcome fs file_index dir_names).

Lemma candidates_of_lookup f cs :
  file_index !! name f = Some cs -> candidates_of file_index f = cs.
Proof. intros Hl. unfold candidates_of. by rewrite Hl. Qed.

Lemma candidates_of_cons f c cs :
  candidates_of file_index f = c :: cs -> file_index !! name f = Some (c :: cs).
Proof.
  unfold candidates_of. destruct (file_index !! name f) as [l|]; simpl; [|done].
  by intros ->.
Qed.

Lemma in_multi_fst upstream f :
  f ∈ (covered_by_file_multi (final upstream)).*1.*1
  <-> f ∈ upstream ∧ 2 ≤ length (candidates_of file_index f)
      ∧ matching_of fs f (candidates_of file_index f) ≠ [].
Proof.
  split.
  - intros ([g m] & -> & ([[g' m'] cs] & [= -> ->] & Hin)%list_elem_of_fmap)%list_elem_of_fmap.
    apply in_covered_by_file_multi in Hin as (Hg & <- & Hlen & -> & Hne). done.
  - intros (Hf & Hlen & Hne).
    apply list_elem_of_fmap. exists (f, matching_of fs f (candidates_of file_index f)).
    split; [done|]. apply list_elem_of_fmap.
    exists (f, matching_of fs f (candidates_of file_index f), candidates_of file_index f).
    split; [done|]. by apply in_covered_by_file_multi.
Qed.

Lemma in_ambiguous_fst upstream f :
  f ∈ (ambiguous (final upstream)).*1
  <-> f ∈ upstream ∧ 2 ≤ length (candidates_of file_index f)
      ∧ matching_of fs f (candidates_of file_index f) = [].
Proof.
  split.
  - intros ([g cs] & -> & Hin)%list_elem_of_fmap.
    apply in_ambiguous in Hin as (Hg & <- & Hlen & Hnone). done.
  - intros (Hf & Hlen & Hnone).
    apply list_elem_of_fmap. exists (f, candidates_of file_index f).
    split; [done|]. by apply in_ambiguous.
Qed.

(** The verdict as a row of five flags: always exactly one of them set. *)
Lemma bucket_flags_outcome upstream f :
  f ∈ upstream ->
  bucket_flags (final upstream) f =
  match candidates_of file_index f with
  | [] => if case_dir_exists dir_names (normalize_case_id (package f) (case_id f))
          then [false; false; true; false; false]
          else [false; false; false; false; true]
  | [_] => [true; false; false; false; false]
  | cs => match matching_of fs f cs with
          | [] => [false; false; false; true; false]
          | _ => [false; true; false; false; false]
          end
  end.
Proof.
  intros Hf. unfold bucket_flags.
  destruct (candidates_of file_index f) as [|c1 [|c2 cs]] eqn:Hc.
  - rewrite (bool_decide_false (f ∈ covered_by_file _)).
    2:{ rewrite in_covered_by_file. intros (_ & si & Hsi). by rewrite Hc in Hsi. }
    rewrite (bool_decide_false (f ∈ (covered_by_file_multi _).*1.*1)).
    2:{ rewrite in_multi_fst, Hc. simpl. intros (_ & Hlen & _). lia. }
    rewrite (bool_decide_false (f ∈ (ambiguous _).*1)).
    2:{ rewrite in_ambiguous_fst, Hc. simpl. intros (_ & Hlen & _). lia. }
    destruct (case_dir_exists _ _) eqn:Hd.
    + rewrite (bool_decide_true (f ∈ covered_by_case_dir _)) by by apply in_covered_by_case_dir.
      rewrite (bool_decide_false (f ∈ missing _)); [done|].
      rewrite in_missing. intros (_ & _ & Hd'). by rewrite Hd in Hd'.
    + rewrite (bool_decide_false (f ∈ covered_by_case_dir _)).
      2:{ rewrite in_covered_by_case_dir. intros (_ & _ & Hd'). by rewrite Hd in Hd'. }
      by rewrite (bool_decide_true (f ∈ missing _)) by by apply in_missing.
  - rewrite (bool_decide_true (f ∈ covered_by_file _)).
    2:{ apply in_covered_by_file. eauto. }
    rewrite (bool_decide_false (f ∈ (covered_by_file_multi _).*1.*1)).
    2:{ rewrite in_multi_fst, Hc. simpl. intros (_ & Hlen & _). lia. }
    rewrite (bool_decide_false (f ∈ covered_by_case_dir _)).
    2:{ rewrite in_covered_by_case_dir, Hc. by intros (_ & ? & _). }
    rewrite (bool_decide_false (f ∈ (ambiguous _).*1)).
    2:{ rewrite in_ambiguous_fst, Hc. simpl. intros (_ & Hlen & _). lia. }
    rewrite (bool_decide_false (f ∈ missing _)); [done|].
    rewrite in_missing, Hc. by intros (_ & ? & _).
  - rewrite (bool_decide_false (f ∈ covered_by_file _)).
    2:{ rewrite in_covered_by_file. intros (_ & si & Hsi). by rewrite Hc in Hsi. }
    rewrite (bool_decide_false (f ∈ covered_by_case_dir _)).
    2:{ rewrite in_covered_by_case_dir, Hc. by intros (_ & ? & _). }
    rewrite (bool_decide_false (f ∈ missing _)).
    2:{ rewrite in_missing, Hc. by intros (_ & ? & _). }
    destruct (matching_of fs f (c1 :: c2 :: cs)) as [|m ms] eqn:Hm.
    + rewrite (bool_decide_false (f ∈ (covered_by_file_multi _).*1.*1)).
      2:{ rewrite in_multi_fst, Hc, Hm. by intros (_ & _ & ?). }
      rewrite (bool_decide_true (f ∈ (ambiguous _).*1)); [done|].
      apply in_ambiguous_fst. rewrite Hc, Hm. simpl. split; [done|]. split; [lia|done].
    + rewrite (bool_decide_true (f ∈ (covered_by_file_multi _).*1.*1)).
      2:{ apply in_multi_fst. rewrite Hc, Hm. simpl. split; [done|]. split; [lia|done]. }
      rewrite (bool_decide_false (f ∈ (ambiguous _).*1)); [done|].
      rewrite in_ambiguous_fst, Hc, Hm. by intros (_ & _ & ?).
Qed.

Lemma bucket_flags_one upstream f :
  f ∈ upstream -> length (filter (fun x => x = true) (bucket_flags (final upstream) f)) = 1.
Proof.
  intros Hf. rewrite (bucket_flags_outcome upstream f Hf).
  destruct (candidates_of file_index f) as [|c1 [|c2 cs]].
  - by destruct (case_dir_exists _ _).
  - done.
  - by destruct (matching_of fs f _).
Qed.

End Flags.

(** * The classifier *)

(** C1: a fixture whose name has exactly one local path is put on
    [covered_by_file] and on no other coverage list; the pair of the fixture
    and that path is on [drift] exactly when the two digests differ; and every
    pair on [drift] is such a fixture with its sole local path. *)
Theorem single_candidate_covered_and_drift `{Hasher} (fs : node)
    (file_index : gmap string (list Path)) (dir_names : gset string)
    (upstream : list UpstreamFixture) :
  all_readable fs file_index upstream = true ->
  ∃ b opened,
    audit fs file_index dir_names upstream [] = Some (b, opened) ∧
    (∀ f si, f ∈ upstream -> file_index !! name f = Some [si] ->
       f ∈ covered_by_file b
       ∧ ((f, si) ∈ drift b <-> file_digest fs (path f) ≠ file_digest fs si)
       ∧ bucket_flags b f = [true; false; false; false; false]) ∧
    (∀ f si, (f, si) ∈ drift b ->
       f ∈ covered_by_file b ∧ f ∈ upstream ∧ file_index !! name f = Some [si]).
Proof.
  intros Hr. eexists _, _. split; [by apply audit_readable|]. split.
  - intros f si Hf Hl. pose proof (candidates_of_lookup file_index f _ Hl) as Hc.
    split; [|split].
    + apply in_covered_by_file. eauto.
    + rewrite in_drift. rewrite Hc. split; [by intros (_ & _ & ?)|done].
    + rewrite (bucket_flags_outcome _ _ _ _ _ Hf). by rewrite Hc.
  - intros f si (Hf & Hc & Hd)%in_drift. split; [|split]; [|done|].
    + apply in_covered_by_file. eauto.
    + by apply candidates_of_cons.
Qed.

Lemma single_candidate_covered_and_drift_witness :
  ∃ b opened,
    audit (H := plain_hasher) sample_fs sample_index sample_dirs sample_upstream []
      = Some (b, opened) ∧
    (∀ f si, f ∈ sample_upstream -> sample_index !! name f = Some [si] ->
       f ∈ covered_by_file b
       ∧ ((f, si) ∈ drift b
          <-> file_digest (H := plain_hasher) sample_fs (path f)
              ≠ file_digest (H := plain_hasher) sample_fs si)
       ∧ bucket_flags b f = [true; false; false; false; false]) ∧
    (∀ f si, (f, si) ∈ drift b ->
       f ∈ covered_by_file b ∧ f ∈ sample_upstream ∧ sample_index !! name f = Some [si]).
Proof.
  apply (single_candidate_covered_and_drift (H := plain_hasher)
           sample_fs sample_index sample_dirs sample_upstream).
  vm_compute. reflexivity.
Defined.

Lemma filter_ext_elem {A} (P Q : A -> Prop) `{!∀ x, Decision (P x)} `{!∀ x, Decision (Q x)}
    (l : list A) :
  (∀ x, x ∈ l -> (P x <-> Q x)) -> filter P l = filter Q l.
Proof.
  induction l as [|a l IH]; intros Hext; [done|].
  rewrite !filter_cons.
  assert (filter P l = filter Q l) as ->.
  { apply IH. intros x Hx. apply Hext. by right. }
  pose proof (Hext a ltac:(left)) as Ha.
  destruct (decide (P a)), (decide (Q a)); tauto.
Qed.

Lemma matching_unmatched_split `{Hasher} fs f cs :
  (∀ c, c ∈ cs <-> c ∈ matching_of fs f cs ∨ c ∈ unmatched_of fs f cs)
  ∧ (∀ c, c ∈ matching_of fs f cs -> c ∉ unmatched_of fs f cs)
  ∧ other_candidates (matching_of fs f cs) cs = unmatched_of fs f cs.
Proof.
  unfold matching_of, unmatched_of, other_candidates. split; [|split].
  - intros c. rewrite !list_elem_of_filter.
    destruct (decide (file_digest fs c = file_digest fs (path f))); tauto.
  - intros c. rewrite !list_elem_of_filter. tauto.
  - apply filter_ext_elem. intros c Hc.
    rewrite list_elem_of_filter. tauto.
Qed.

(** C2: a fixture whose name has two or more local paths has them split
    into those with the upstream digest and the others; with a match the
    triple of the fixture, the matching list and the full list is put on
    [covered_by_file_multi], without one the pair of the fixture and the full
    list is put on [ambiguous]; the fixture is on no other coverage list. *)
Theorem multi_candidates_partitioned `{Hasher} (fs : node)
    (file_index : gmap string (list Path)) (dir_names : gset string)
    (upstream : list UpstreamFixture) :
  all_readable fs file_index upstream = true ->
  ∃ b opened,
    audit fs file_index dir_names upstream [] = Some (b, opened) ∧
    ∀ f cs, f ∈ upstream -> file_index !! name f = Some cs -> 2 ≤ length cs ->
      (∀ c, c ∈ cs <-> c ∈ matching_of fs f cs ∨ c ∈ unmatched_of fs f cs)
      ∧ (∀ c, c ∈ matching_of fs f cs -> c ∉ unmatched_of fs f cs)
      ∧ other_candidates (matching_of fs f cs) cs = unmatched_of fs f cs
      ∧ (matching_of fs f cs ≠ [] ->
           (f, matching_of fs f cs, cs) ∈ covered_by_file_multi b
           ∧ bucket_flags b f = [false; true; false; false; false])
      ∧ (matching_of fs f cs = [] ->
           (f, cs) ∈ ambiguous b
           ∧ bucket_flags b f = [false; false; false; true; false]).
Proof.
  intros Hr. eexists _, _. split; [by apply audit_readable|].
  intros f cs Hf Hl Hlen. pose proof (candidates_of_lookup file_index f _ Hl) as Hc.
  destruct (matching_unmatched_split fs f cs) as (Hsplit & Hdisj & Hother).
  split; [done|]. split; [done|]. split; [done|].
  pose proof (bucket_flags_outcome fs file_index dir_names upstream f Hf) as Hflags.
  rewrite Hc in Hflags.
  destruct cs as [|c1 [|c2 cs]]; [simpl in Hlen; lia..|].
  split.
  - intros Hne. split; [by apply in_covered_by_file_multi|].
    rewrite Hflags. by destruct (matching_of fs f (c1 :: c2 :: cs)).
  - intros Hnone. split; [by apply in_ambiguous|].
    rewrite Hflags. by rewrite Hnone.
Qed.

Lemma multi_candidates_partitioned_witness :
  ∃ b opened,
    audit (H := plain_hasher) sample_fs sample_index sample_dirs sample_upstream []
      = Some (b, opened) ∧
    ∀ f cs, f ∈ sample_upstream -> sample_index !! name f = Some cs -> 2 ≤ length cs ->
      (∀ c, c ∈ cs <-> c ∈ matching_of (H := plain_hasher) sample_fs f cs
                       ∨ c ∈ unmatched_of (H := plain_hasher) sample_fs f cs)
      ∧ (∀ c, c ∈ matching_of (H := plain_hasher) sample_fs f cs
              -> c ∉ unmatched_of (H := plain_hasher) sample_fs f cs)
      ∧ other_candidates (matching_of (H := plain_hasher) sample_fs f cs) cs
        = unmatched_of (H := plain_hasher) sample_fs f cs
      ∧ (matching_of (H := plain_hasher) sample_fs f cs ≠ [] ->
           (f, matching_of (H := plain_hasher) sample_fs f cs, cs) ∈ covered_by_file_multi b
           ∧ bucket_flags b f = [false; true; false; false; false])
      ∧ (matching_of (H := plain_hasher) sample_fs f cs = [] ->
           (f, cs) ∈ ambiguous b
           ∧ bucket_flags b f = [false; false; false; true; false]).
Proof.
  apply (multi_candidates_partitioned (H := plain_hasher)
           sample_fs sample_index sample_dirs sample_upstream).
  vm_compute. reflexivity.
Defined.

Lemma main_unfold `{Hasher} ignore fs ai_root siumai_root :
  main ignore fs ai_root siumai_root
  = audit fs (build_siumai_fixture_index fs siumai_root).1
          (build_siumai_fixture_index fs siumai_root).2
          (upstream_of ignore fs ai_root).
Proof. unfold main. by destruct (build_siumai_fixture_index fs siumai_root). Qed.

Lemma elem_of_upstream_of ignore fs ai_root f :
  f ∈ upstream_of ignore fs ai_root
  <-> f ∈ iter_upstream_fixtures fs ai_root ∧ package f ∉ ignore.
Proof. unfold upstream_of. rewrite list_elem_of_filter. tauto. Qed.

(** C3: every upstream fixture outside the ignored packages is on exactly one
    of the five coverage lists, so their lengths add up to the number of such
    fixtures; one without a same-name candidate is on [covered_by_case_dir]
    when [case_dir_exists] holds for its normalized case id and on [missing]
    otherwise. *)
Theorem every_fixture_in_one_bucket `{Hasher} (ignore : gset string) (fs : node)
    (ai_root siumai_root : Path) :
  all_readable fs (build_siumai_fixture_index fs siumai_root).1
               (upstream_of ignore fs ai_root) = true ->
  ∃ b opened,
    main ignore fs ai_root siumai_root [] = Some (b, opened) ∧
    classified b = length (upstream_of ignore fs ai_root) ∧
    ∀ f, f ∈ iter_upstream_fixtures fs ai_root -> package f ∉ ignore ->
      length (filter (fun x => x = true) (bucket_flags b f)) = 1
      ∧ (candidates_of (build_siumai_fixture_index fs siumai_root).1 f = [] ->
           bucket_flags b f =
           if case_dir_exists (build_siumai_fixture_index fs siumai_root).2
                (normalize_case_id (package f) (case_id f))
           then [false; false; true; false; false]
           else [false; false; false; false; true]).
Proof.
  intros Hr. eexists _, _. rewrite main_unfold.
  split; [by apply audit_readable|]. split; [apply classified_outcome|].
  intros f Hf Hpkg.
  assert (f ∈ upstream_of ignore fs ai_root) as Hup by by apply elem_of_upstream_of.
  split; [by apply bucket_flags_one|].
  intros Hc. rewrite (bucket_flags_outcome _ _ _ _ _ Hup). by rewrite Hc.
Qed.

Lemma every_fixture_in_one_bucket_witness :
  ∃ b opened,
    main (H := plain_hasher) sample_ignore sample_fs ["ai"] ["si"] [] = Some (b, opened) ∧
    classified b = length (upstream_of sample_ignore sample_fs ["ai"]) ∧
    ∀ f, f ∈ iter_upstream_fixtures sample_fs ["ai"] -> package f ∉ sample_ignore ->
      length (filter (fun x => x = true) (bucket_flags b f)) = 1
      ∧ (candidates_of (build_siumai_fixture_index sample_fs ["si"]).1 f = [] ->
           bucket_flags b f =
           if case_dir_exists (build_siumai_fixture_index sample_fs ["si"]).2
                (normalize_case_id (package f) (case_id f))
           then [false; false; true; false; false]
           else [false; false; false; false; true]).
Proof.
  apply (every_fixture_in_one_bucket (H := plain_hasher)
           sample_ignore sample_fs ["ai"] ["si"]).
  vm_compute. reflexivity.
Defined.

(** * Walking the tree *)

Lemma node_nested_ind (P : node -> Prop) :
  (∀ content, P (File content)) ->
  (∀ es, Forall (fun e => P e.2) es -> P (Dir es)) ->
  P Special ->
  ∀ n, P n.
Proof.
  intros HF HD HS. fix IH 1. intros [content|es|]; [apply HF| |apply HS].
  apply HD. induction es as [|[k n] es IHes]; constructor; [apply IH|apply IHes].
Qed.

Lemma find_entry_erase c es :
  find_entry c (map (fun e => (e.1, erase e.2)) es) = erase <$> find_entry c es.
Proof.
  induction es as [|[k n] es IH]; [done|]. simpl. by case_decide.
Qed.

Lemma lookup_node_erase n p : lookup_node (erase n) p = erase <$> lookup_node n p.
Proof.
  revert n. induction p as [|c p IH]; intros n; [done|].
  destruct n as [content|es|]; simpl; try done.
  rewrite find_entry_erase. destruct (find_entry c es) as [child|]; simpl; [apply IH|done].
Qed.

Lemma is_dir_erase fs p : is_dir (erase fs) p = is_dir fs p.
Proof.
  unfold is_dir. rewrite lookup_node_erase.
  by destruct (lookup_node fs p) as [[| |]|].
Qed.

Lemma is_file_erase fs p : is_file (erase fs) p = is_file fs p.
Proof.
  unfold is_file. rewrite lookup_node_erase.
  by destruct (lookup_node fs p) as [[| |]|].
Qed.

Lemma select_children_erase matches d es :
  select_children matches (d, map (fun e => (e.1, erase e.2)) es)
  = select_children matches (d, es).
Proof.
  unfold select_children. simpl.
  induction es as [|[k n] es IH]; [done|].
  simpl. rewrite !filter_cons. simpl. case_decide; simpl; by rewrite IH.
Qed.

Lemma flat_map_flat_map {A B C} (f : B -> list C) (g : A -> list B) l :
  flat_map f (flat_map g l) = flat_map (fun x => flat_map f (g x)) l.
Proof. induction l as [|a l IH]; [done|]. simpl. by rewrite flat_map_app, IH. Qed.

Lemma flat_map_map {A B C} (f : B -> list C) (g : A -> B) l :
  flat_map f (map g l) = flat_map (fun x => f (g x)) l.
Proof. induction l as [|a l IH]; [done|]. simpl. by rewrite IH. Qed.

Lemma flat_map_ext_Forall {A B} (f g : A -> list B) l :
  Forall (fun x => f x = g x) l -> flat_map f l = flat_map g l.
Proof. induction 1 as [|a l Ha Hl IH]; [done|]. simpl. by rewrite Ha, IH. Qed.

Lemma dirs_preorder_erase matches n : ∀ base,
  flat_map (select_children matches) (dirs_preorder base (erase n))
  = flat_map (select_children matches) (dirs_preorder base n).
Proof.
  induction n as [content|es IH|] using node_nested_ind; intros base; [done| |done].
  cbn [erase dirs_preorder flat_map]. rewrite select_children_erase. f_equal.
  rewrite !flat_map_flat_map, flat_map_map. apply flat_map_ext_Forall.
  eapply Forall_impl; [exact IH|]. intros [k n] Hn. simpl. apply Hn.
Qed.

Lemma rglob_erase fs root matches : rglob (erase fs) root matches = rglob fs root matches.
Proof.
  unfold rglob. rewrite lookup_node_erase.
  destruct (lookup_node fs root) as [n|]; simpl; [apply dirs_preorder_erase|done].
Qed.

(** The local index is a function of the names and kinds of the entries only. *)
Lemma build_siumai_fixture_index_erase fs siumai_root :
  build_siumai_fixture_index (erase fs) siumai_root = build_siumai_fixture_index fs siumai_root.
Proof.
  unfold build_siumai_fixture_index. rewrite rglob_erase.
  generalize (∅ : gmap string (list Path), ∅ : gset string).
  induction (rglob fs _ pat_all) as [|p ps IH]; intros acc; [done|].
  simpl. rewrite <- IH. f_equal.
  unfold index_entry. by rewrite is_dir_erase, is_file_erase.
Qed.

(** * Which files are hashed *)

Lemma elem_of_needs file_index f p :
  p ∈ needs file_index f ->
  candidates_of file_index f ≠ [] ∧ (p = path f ∨ p ∈ candidates_of file_index f).
Proof.
  unfold needs. destruct (candidates_of file_index f) as [|c cs].
  - by intros ?%elem_of_nil.
  - intros [->|Hp]%elem_of_cons; split; auto.
Qed.

(** C9, as amended: the local index does not depend on any file's content;
    the step for a fixture without a same-name candidate opens no file; and a
    run opens, in order, for each fixture with one or several same-name
    candidates the upstream file and then each candidate, and nothing else. *)
Theorem hashing_only_for_name_matches `{Hasher} (fs : node)
    (file_index : gmap string (list Path)) (dir_names : gset string)
    (upstream : list UpstreamFixture) :
  all_readable fs file_index upstream = true ->
  (∀ siumai_root,
     build_siumai_fixture_index (erase fs) siumai_root = build_siumai_fixture_index fs siumai_root) ∧
  (∀ b f opened, candidates_of file_index f = [] ->
     ∃ b', classify fs file_index dir_names b f opened = Some (b', opened)) ∧
  ∃ b opened,
    audit fs file_index dir_names upstream [] = Some (b, opened) ∧
    opened = flat_map (needs file_index) upstream ∧
    ∀ p, p ∈ opened ->
      ∃ f, f ∈ upstream ∧ candidates_of file_index f ≠ []
           ∧ (p = path f ∨ p ∈ candidates_of file_index f).
Proof.
  intros Hr. split; [apply build_siumai_fixture_index_erase|].
  split; [intros b f opened; apply classify_no_candidate|].
  eexists _, _. split; [by apply audit_readable|]. split; [done|].
  intros p (f & Hf & Hp)%list_elem_of_In%in_flat_map.
  apply list_elem_of_In in Hf, Hp. exists f. split; [done|]. by apply elem_of_needs.
Qed.

Lemma hashing_only_for_name_matches_witness :
  (∀ siumai_root,
     build_siumai_fixture_index (erase sample_fs) siumai_root
     = build_siumai_fixture_index sample_fs siumai_root) ∧
  (∀ b f opened, candidates_of sample_index f = [] ->
     ∃ b', classify (H := plain_hasher) sample_fs sample_index sample_dirs b f opened
           = Some (b', opened)) ∧
  ∃ b opened,
    audit (H := plain_hasher) sample_fs sample_index sample_dirs sample_upstream []
      = Some (b, opened) ∧
    opened = flat_map (needs sample_index) sample_upstream ∧
    ∀ p, p ∈ opened ->
      ∃ f, f ∈ sample_upstream ∧ candidates_of sample_index f ≠ []
           ∧ (p = path f ∨ p ∈ candidates_of sample_index f).
Proof.
  apply (hashing_only_for_name_matches (H := plain_hasher)
           sample_fs sample_index sample_dirs sample_upstream).
  vm_compute. reflexivity.
Defined.

(** With same-name files in two places and no one-to-one match anywhere,
    three files are hashed all the same. *)
Lemma hashing_without_single_match_counterexample :
  upstream_of ∅ multi_only_fs ["ai"]
    = [ mkUpstreamFixture "anthropic" ["ai"; "packages"; "anthropic"; "__fixtures__"; "multi.json"] ] ∧
  candidates_of (build_siumai_fixture_index multi_only_fs ["si"]).1
    (mkUpstreamFixture "anthropic" ["ai"; "packages"; "anthropic"; "__fixtures__"; "multi.json"])
    = [ ["si"; "siumai"; "tests"; "fixtures"; "one"; "multi.json"];
        ["si"; "siumai"; "tests"; "fixtures"; "two"; "multi.json"] ] ∧
  ∃ b, main (H := plain_hasher) ∅ multi_only_fs ["ai"] ["si"] []
       = Some (b, [ ["ai"; "packages"; "anthropic"; "__fixtures__"; "multi.json"];
                    ["si"; "siumai"; "tests"; "fixtures"; "one"; "multi.json"];
                    ["si"; "siumai"; "tests"; "fixtures"; "two"; "multi.json"] ])
       ∧ covered_by_file b = [] ∧ drift b = [].
Proof.
  split; [by vm_compute|]. split; [by vm_compute|].
  eexists. split; [vm_compute; reflexivity|]. by split.
Qed.

(** * Roots that do not exist *)

Lemma lookup_node_app n p q :
  lookup_node n (p ++ q) = lookup_node n p ≫= fun m => lookup_node m q.
Proof.
  revert n. induction p as [|c p IH]; intros n; [done|].
  destruct n as [content|es|]; simpl; try done.
  destruct (find_entry c es) as [child|]; [apply IH|done].
Qed.

Lemma rglob_missing fs root matches : lookup_node fs root = None -> rglob fs root matches = [].
Proof. intros Hl. unfold rglob. by rewrite Hl. Qed.

Lemma iter_upstream_fixtures_missing fs ai_root :
  lookup_node fs (ai_root ++ ["packages"]) = None -> iter_upstream_fixtures fs ai_root = [].
Proof.
  intros Hl. unfold iter_upstream_fixtures, enumerate_upstream.
  by rewrite (rglob_missing _ _ _ Hl).
Qed.

Lemma build_siumai_fixture_index_missing fs siumai_root :
  lookup_node fs (siumai_root ++ ["siumai"; "tests"; "fixtures"]) = None ->
  build_siumai_fixture_index fs siumai_root = (∅, ∅).
Proof.
  intros Hl. unfold build_siumai_fixture_index. by rewrite (rglob_missing _ _ _ Hl).
Qed.

Lemma case_dir_exists_empty id : case_dir_exists ∅ id = false.
Proof.
  unfold case_dir_exists. rewrite bool_decide_false by set_solver.
  by rewrite elements_empty.
Qed.

(** With nothing indexed, the loop hashes nothing and lists every fixture as
    missing. *)
Lemma foldM_empty_index `{Hasher} fs b upstream o :
  foldM (classify fs ∅ ∅) b upstream o
  = Some (mkBuckets (covered_by_file b) (covered_by_file_multi b) (covered_by_case_dir b)
            (missing b ++ upstream) (ambiguous b) (drift b), o).
Proof.
  revert b. induction upstream as [|f rest IH]; intros b.
  - simpl. unfold mret, M_ret. rewrite app_nil_r. by destruct b.
  - cbn [foldM]. rewrite (bind_Some _ _ o
      (mkBuckets (covered_by_file b) (covered_by_file_multi b) (covered_by_case_dir b)
         (missing b ++ [f]) (ambiguous b) (drift b)) o).
    + rewrite IH. simpl. by rewrite <- app_assoc.
    + unfold classify, candidates_of. rewrite lookup_empty. simpl.
      by rewrite case_dir_exists_empty.
Qed.

(** C8: when the upstream root or its [packages] directory does not exist,
    the enumeration is empty and the run ends with six empty lists; when the
    local fixtures root does not exist, the index and the set of directory
    names are empty and the run ends, without hashing, with every fixture on
    [missing]. *)
Theorem missing_roots_tolerated `{Hasher} (ignore : gset string) (fs : node)
    (ai_root siumai_root : Path) :
  (lookup_node fs ai_root = None ∨ lookup_node fs (ai_root ++ ["packages"]) = None ->
     iter_upstream_fixtures fs ai_root = []
     ∧ main ignore fs ai_root siumai_root [] = Some (no_buckets, [])) ∧
  (lookup_node fs (siumai_root ++ ["siumai"; "tests"; "fixtures"]) = None ->
     build_siumai_fixture_index fs siumai_root = (∅, ∅)
     ∧ main ignore fs ai_root siumai_root []
       = Some (mkBuckets [] [] [] (upstream_of ignore fs ai_root) [] [], [])).
Proof.
  split.
  - intros Hnone.
    assert (lookup_node fs (ai_root ++ ["packages"]) = None) as Hl.
    { destruct Hnone as [Hroot|Hpk]; [|done]. by rewrite lookup_node_app, Hroot. }
    pose proof (iter_upstream_fixtures_missing fs ai_root Hl) as Hiter.
    split; [done|]. rewrite main_unfold. unfold upstream_of. by rewrite Hiter.
  - intros Hl. pose proof (build_siumai_fixture_index_missing fs siumai_root Hl) as Hidx.
    split; [done|]. rewrite main_unfold, Hidx. simpl. unfold audit.
    by rewrite foldM_empty_index.
Qed.

Example missing_local_root_example :
  main (H := plain_hasher) sample_ignore sample_fs ["ai"] ["nowhere"] []
  = Some (mkBuckets [] [] [] (upstream_of sample_ignore sample_fs ["ai"]) [] [], [])
  ∧ length (upstream_of sample_ignore sample_fs ["ai"]) = 9
  ∧ main (H := plain_hasher) sample_ignore sample_fs ["nowhere"] ["si"] [] = Some (no_buckets, []).
Proof. by vm_compute. Qed.

(** * Sorting by the rendered path *)

Section Sorting.
Context {A : Type} (key : A -> string).

Lemma insert_by_perm x l : insert_by key x l ≡ₚ x :: l.
Proof.
  induction l as [|y l IH]; [done|]. simpl.
  destruct (String.leb (key x) (key y)); [done|].
  rewrite IH. apply Permutation_swap.
Qed.

Lemma sorted_by_perm l : sorted_by key l ≡ₚ l.
Proof.
  induction l as [|x l IH]; [done|]. simpl. by rewrite insert_by_perm, IH.
Qed.

Lemma insert_by_sorted x l :
  StronglySorted (key_le key) l -> StronglySorted (key_le key) (insert_by key x l).
Proof.
  induction l as [|y l IH]; intros Hs.
  - repeat constructor.
  - apply StronglySorted_inv in Hs as [Hl Hy]. simpl.
    destruct (String.leb (key x) (key y)) eqn:Hxy.
    + constructor; [by constructor|]. constructor.
      * unfold key_le, String.le. by rewrite Hxy.
      * eapply Forall_impl; [exact Hy|]. intros z Hyz. unfold key_le in *.
        etrans; [|exact Hyz]. unfold String.le. by rewrite Hxy.
    + constructor; [by apply IH|].
      rewrite insert_by_perm. constructor; [|done].
      unfold key_le. destruct (total String.le (key y) (key x)) as [Hle|Hle]; [done|].
      unfold String.le in Hle. by rewrite Hxy in Hle.
Qed.

Lemma sorted_by_sorted l : StronglySorted (key_le key) (sorted_by key l).
Proof.
  induction l as [|x l IH]; [constructor|]. simpl. by apply insert_by_sorted.
Qed.

(** Equal keys keep their order: the sort is stable. *)
Lemma insert_by_filter_eq k x l :
  filter (fun a => key a = k) (insert_by key x l) = filter (fun a => key a = k) (x :: l).
Proof.
  induction l as [|y l IH]; [done|]. simpl.
  destruct (String.leb (key x) (key y)) eqn:Hxy; [done|].
  rewrite (filter_cons _ y), IH, !(filter_cons _ x), (filter_cons _ y).
  destruct (decide (key y = k)) as [Hy|Hy], (decide (key x = k)) as [Hx|Hx]; try done.
  rewrite Hx, Hy in Hxy.
  assert (String.le k k) as Hkk by done. unfold String.le in Hkk.
  by rewrite Hxy in Hkk.
Qed.

Lemma sorted_by_stable k l :
  filter (fun a => key a = k) (sorted_by key l) = filter (fun a => key a = k) l.
Proof.
  induction l as [|x l IH]; [done|]. simpl.
  by rewrite insert_by_filter_eq, !(filter_cons _ x), IH.
Qed.

End Sorting.

(** * The upstream enumeration *)

Lemma walk_Dir base es matches :
  walk base (Dir es) matches
  = select_children matches (base, es)
    ++ flat_map (fun e => walk (base ++ [e.1]) e.2 matches) es.
Proof. unfold walk. simpl. by rewrite flat_map_flat_map. Qed.

Lemma elem_of_select_children matches base es q :
  q ∈ select_children matches (base, es)
  <-> ∃ e, e ∈ es ∧ q = base ++ [e.1] ∧ matches e.1 = true.
Proof.
  unfold select_children. simpl. rewrite list_elem_of_fmap. split.
  - intros (e & -> & [Hm He]%list_elem_of_filter). exists e.
    split; [done|]. split; [done|]. by apply Is_true_true.
  - intros (e & He & -> & Hm). exists e. split; [done|].
    apply list_elem_of_filter. split; [by apply Is_true_true|done].
Qed.

(** Everything the walk yields lies strictly below its start and has a
    matching name. *)
Lemma elem_of_walk_below matches n : ∀ base q,
  q ∈ walk base n matches -> ∃ r c, q = base ++ r ++ [c] ∧ matches c = true.
Proof.
  induction n as [content|es IH|] using node_nested_ind; intros base q Hq;
    [by apply elem_of_nil in Hq| |by apply elem_of_nil in Hq].
  rewrite walk_Dir in Hq. apply elem_of_app in Hq as [Hq|Hq].
  - apply elem_of_select_children in Hq as (e & He & -> & Hm). by exists [], e.1.
  - apply list_elem_of_In, in_flat_map in Hq as (e & He & Hq).
    apply list_elem_of_In in He, Hq.
    rewrite Forall_forall in IH.
    destruct (IH e He _ _ Hq) as (r & c & -> & Hm).
    exists (e.1 :: r), c. split; [|done]. by rewrite <- app_assoc.
Qed.

Lemma elem_of_rglob_below fs root matches q :
  q ∈ rglob fs root matches -> ∃ r c, q = root ++ r ++ [c] ∧ matches c = true.
Proof.
  unfold rglob. destruct (lookup_node fs root) as [n|];
    [apply elem_of_walk_below|by intros ?%elem_of_nil].
Qed.

Lemma path_name_snoc d c : path_name (d ++ [c]) = c.
Proof. unfold path_name. apply last_last. Qed.

Lemma relative_to_app root r : relative_to (root ++ r) root = Some r.
Proof.
  induction root as [|c root IH]; [by destruct r|]. simpl. by rewrite decide_True.
Qed.

Lemma elem_of_fixtures_below fs packages_root d f :
  f ∈ fixtures_below fs packages_root d ->
  is_dir fs d = true ∧ package f = package_of packages_root d
  ∧ path f ∈ rglob fs d pat_all ∧ is_file fs (path f) = true.
Proof.
  unfold fixtures_below. destruct (is_dir fs d); [|by intros ?%elem_of_nil].
  intros (file & -> & [Hfile Hin]%list_elem_of_filter)%list_elem_of_fmap. simpl.
  split; [done|]. split; [done|]. split; [done|]. by apply Is_true_true.
Qed.

Lemma elem_of_enumerate_upstream fs packages_root f :
  f ∈ enumerate_upstream fs packages_root ->
  ∃ d, d ∈ rglob fs packages_root pat_fixtures ∧ f ∈ fixtures_below fs packages_root d.
Proof.
  unfold enumerate_upstream. intros (d & Hd & Hf)%list_elem_of_In%in_flat_map.
  exists d. by rewrite !list_elem_of_In.
Qed.

(** In fact the sentinel never appears: the package is the first component
    of the fixture's own path below the packages root. *)
Lemma enumerated_package_first_component fs ai_root f :
  f ∈ iter_upstream_fixtures fs ai_root ->
  ∃ rest, path f = ai_root ++ ["packages"] ++ package f :: rest.
Proof.
  intros Hf. unfold iter_upstream_fixtures in Hf. rewrite sorted_by_perm in Hf.
  apply elem_of_enumerate_upstream in Hf as (d & Hd & Hf).
  apply elem_of_fixtures_below in Hf as (Hdir & Hpkg & Hin & Hfile).
  destruct (elem_of_rglob_below _ _ _ _ Hd) as (r & c & Hdeq & Hc).
  destruct (elem_of_rglob_below _ _ _ _ Hin) as (r' & c' & Hfeq & _).
  rewrite Hpkg. unfold package_of. rewrite Hdeq, relative_to_app.
  rewrite Hfeq, Hdeq. destruct r as [|c0 r]; simpl.
  - exists (r' ++ [c']). by rewrite <- !app_assoc.
  - exists (r ++ [c] ++ r' ++ [c']). rewrite <- !app_assoc. simpl. by rewrite <- ?app_assoc.
Qed.

(** * How often a file is enumerated *)

Lemma filter_none {B} (P : B -> Prop) `{!∀ x, Decision (P x)} (l : list B) :
  (∀ x, x ∈ l -> ¬ P x) -> filter P l = [].
Proof.
  induction l as [|a l IH]; intros Hn; [done|].
  rewrite filter_cons_False by (apply Hn; by left).
  apply IH. intros x Hx. apply Hn. by right.
Qed.

Lemma find_entry_Some c es child : find_entry c es = Some child -> (c, child) ∈ es.
Proof.
  induction es as [|[k n] es IH]; [done|]. simpl. case_decide as Hk.
  - intros [= ->]. subst k. by left.
  - intros Hf. right. by apply IH.
Qed.

Lemma find_entry_None c es : c ∉ es.*1 -> find_entry c es = None.
Proof.
  induction es as [|[k n] es IH]; [done|]. simpl. intros Hc.
  apply not_elem_of_cons in Hc as [Hck Hc]. rewrite decide_False by done. by apply IH.
Qed.

Lemma wf_Dir es : wf (Dir es) = true -> NoDup es.*1 ∧ ∀ e, e ∈ es -> wf e.2 = true.
Proof.
  simpl. intros [Hnd Hall]%andb_prop. split; [by apply bool_decide_eq_true in Hnd|].
  intros e He. rewrite forallb_forall in Hall. apply Hall. by apply list_elem_of_In.
Qed.

Lemma wf_lookup n p m : wf n = true -> lookup_node n p = Some m -> wf m = true.
Proof.
  revert n. induction p as [|c p IH]; intros n Hwf; simpl; [by intros [= <-]|].
  destruct n as [content|es|]; try done.
  destruct (find_entry c es) as [child|] eqn:Hc; [|done].
  apply IH. apply wf_Dir in Hwf as [_ Hall].
  apply (Hall (c, child)). by apply find_entry_Some.
Qed.

(** In a directory without repeated names, only the entry named [c] can
    contribute to a selection that every other entry leaves empty. *)
Lemma filter_flat_map_entry {B} (P : B -> Prop) `{!∀ x, Decision (P x)}
    (F : string * node -> list B) es c :
  NoDup es.*1 ->
  (∀ e, e ∈ es -> e.1 ≠ c -> filter P (F e) = []) ->
  filter P (flat_map F es)
  = match find_entry c es with
    | Some child => filter P (F (c, child))
    | None => []
    end.
Proof.
  induction es as [|[k n] es IH]; intros Hnd Hoth; [done|].
  simpl in Hnd. apply NoDup_cons in Hnd as [Hk Hnd].
  simpl. rewrite filter_app. case_decide as Hkc.
  - subst k. rewrite IH; [|done|intros e He; apply Hoth; by right].
    rewrite find_entry_None by done. by rewrite app_nil_r.
  - rewrite (Hoth (k, n)); [|by left|done]. simpl.
    apply IH; [done|]. intros e He. apply Hoth. by right.
Qed.

Lemma select_children_flat_map matches base es :
  select_children matches (base, es)
  = flat_map (fun e : string * node => if matches e.1 then [base ++ [e.1]] else []) es.
Proof.
  unfold select_children. simpl. induction es as [|[k n] es IH]; [done|].
  simpl. rewrite filter_cons. simpl. destruct (matches k); simpl; by rewrite IH.
Qed.

Lemma lookup_node_cons_Some n c r x :
  lookup_node n (c :: r) = Some x ->
  ∃ es child, n = Dir es ∧ find_entry c es = Some child ∧ lookup_node child r = Some x.
Proof.
  simpl. destruct n as [content|es|]; try done.
  destruct (find_entry c es) as [child|] eqn:Hc; [|done]. eauto.
Qed.

(** A walk over a well-formed tree yields an existing entry with a matching
    name exactly once. *)
Lemma walk_lists_once matches : ∀ r base n x,
  wf n = true -> lookup_node n r = Some x -> r ≠ [] -> matches (path_name r) = true ->
  filter (fun q => q = base ++ r) (walk base n matches) = [base ++ r].
Proof.
  induction r as [|c r IH]; intros base n x Hwf Hl Hne Hm; [done|].
  apply lookup_node_cons_Some in Hl as (es & child & -> & Hc & Hl).
  destruct (wf_Dir es Hwf) as [Hnd Hall].
  rewrite walk_Dir, filter_app.
  destruct r as [|c2 r].
  - (* the entry is a child of this directory *)
    rewrite select_children_flat_map.
    rewrite (filter_flat_map_entry _ _ es c Hnd), Hc.
    + simpl in Hm. unfold path_name in Hm. simpl in Hm. cbn [fst snd]. rewrite Hm.
      rewrite filter_cons_True by done. rewrite filter_nil.
      rewrite filter_none; [done|].
      intros q (e & He & Hq)%list_elem_of_In%in_flat_map. apply list_elem_of_In in Hq.
      apply elem_of_walk_below in Hq as (r' & c' & -> & _).
      intros Heq. rewrite <- app_assoc in Heq. apply app_inv_head in Heq.
      simpl in Heq. injection Heq as _ Heq. by destruct r'.
    + intros e He Hec. simpl. destruct (matches e.1); [|done].
      rewrite filter_cons_False, filter_nil; [done|].
      intros Heq. apply app_inv_head in Heq. by injection Heq.
  - (* the entry lies deeper *)
    rewrite filter_none.
    2:{ intros q (e & He & -> & _)%elem_of_select_children Heq.
        apply app_inv_head in Heq. by injection Heq. }
    simpl. rewrite (filter_flat_map_entry _ _ es c Hnd), Hc.
    + simpl. replace (base ++ c :: c2 :: r) with ((base ++ [c]) ++ c2 :: r)
        by by rewrite <- app_assoc.
      apply (IH (base ++ [c]) child x); [|done|done|done].
      apply (Hall (c, child)). by apply find_entry_Some.
    + intros e He Hec. apply filter_none. intros q Hq.
      apply elem_of_walk_below in Hq as (r' & c' & -> & _).
      intros Heq. rewrite <- app_assoc in Heq. apply app_inv_head in Heq.
      simpl in Heq. by injection Heq.
Qed.

Lemma filter_fmap_path (p : Path) pkg (l : list Path) :
  filter (fun f => path f = p) (map (mkUpstreamFixture pkg) l)
  = map (mkUpstreamFixture pkg) (filter (fun q => q = p) l).
Proof.
  induction l as [|q l IH]; [done|]. simpl. rewrite !filter_cons. simpl.
  destruct (decide (q = p)); simpl; by rewrite IH.
Qed.

Lemma fixtures_ancestors_single c : fixtures_ancestors [c] = 0.
Proof. reflexivity. Qed.

Lemma fixtures_ancestors_cons c c2 r :
  fixtures_ancestors (c :: c2 :: r)
  = (if decide (c = "__fixtures__") then 1 else 0) + fixtures_ancestors (c2 :: r).
Proof.
  unfold fixtures_ancestors. cbn [removelast]. rewrite filter_cons.
  by destruct (decide (c = "__fixtures__")).
Qed.

Section Occurrences.
Variables (fs : node) (packages_root : Path).
Hypothesis fs_wf : wf fs = true.

Lemma fixtures_below_path d f :
  f ∈ fixtures_below fs packages_root d -> ∃ r c, path f = d ++ r ++ [c].
Proof.
  intros (_ & _ & Hin & _)%elem_of_fixtures_below.
  apply elem_of_rglob_below in Hin as (r & c & Hp & _). eauto.
Qed.

(** A file strictly below a directory is listed once for that directory. *)
Lemma fixtures_below_once d child rel content :
  lookup_node fs d = Some child -> lookup_node child rel = Some (File content) -> rel ≠ [] ->
  filter (fun f => path f = d ++ rel) (fixtures_below fs packages_root d)
  = [mkUpstreamFixture (package_of packages_root d) (d ++ rel)].
Proof.
  intros Hd Hrel Hne.
  assert (is_file fs (d ++ rel) = true) as Hfile.
  { unfold is_file. by rewrite lookup_node_app, Hd; simpl; rewrite Hrel. }
  destruct rel as [|c rel]; [done|].
  destruct (lookup_node_cons_Some _ _ _ _ Hrel) as (es & sub & -> & _ & _).
  unfold fixtures_below, is_dir, rglob. rewrite Hd.
  rewrite filter_fmap_path.
  rewrite list_filter_filter.
  rewrite (filter_ext_elem _ (fun q => q = d ++ c :: rel)).
  2:{ intros q _. split; [by intros [? _]|]. intros ->. split; [done|].
      by apply Is_true_true. }
  rewrite (walk_lists_once pat_all (c :: rel) d (Dir es) (File content)); try done.
  by apply (wf_lookup fs d).
Qed.

Lemma enumerate_below_count : ∀ rel base n content,
  lookup_node fs base = Some n -> lookup_node n rel = Some (File content) ->
  length (filter (fun f => path f = base ++ rel)
            (flat_map (fixtures_below fs packages_root) (walk base n pat_fixtures)))
  = fixtures_ancestors rel.
Proof.
  induction rel as [|c rel IH]; intros base n content Hbase Hrel.
  - simpl in Hrel. injection Hrel as ->. done.
  - destruct (lookup_node_cons_Some _ _ _ _ Hrel) as (es & child & -> & Hc & Hchild).
    pose proof (wf_lookup fs base _ fs_wf Hbase) as Hwf.
    destruct (wf_Dir es Hwf) as [Hnd Hall].
    assert (lookup_node fs (base ++ [c]) = Some child) as Hsub.
    { rewrite lookup_node_app, Hbase. simpl. by rewrite Hc. }
    rewrite walk_Dir, flat_map_app, filter_app, length_app.
    rewrite select_children_flat_map, !flat_map_flat_map.
    (* the directories named [__fixtures__] right here *)
    rewrite (filter_flat_map_entry _ _ es c Hnd), Hc.
    2:{ intros e He Hec. apply filter_none. intros f Hf.
        destruct (pat_fixtures e.1); [|by apply elem_of_nil in Hf].
        simpl in Hf. rewrite app_nil_r in Hf.
        apply fixtures_below_path in Hf as (r' & c' & ->).
        intros Heq. rewrite <- app_assoc in Heq. apply app_inv_head in Heq.
        simpl in Heq. by injection Heq. }
    (* the rest of the walk, one subtree per entry *)
    rewrite (filter_flat_map_entry _ _ es c Hnd), Hc.
    2:{ intros e He Hec. apply filter_none.
        intros f (d & Hd & Hf)%list_elem_of_In%in_flat_map.
        apply list_elem_of_In in Hd, Hf.
        apply elem_of_walk_below in Hd as (r0 & c0 & -> & _).
        apply fixtures_below_path in Hf as (r' & c' & ->).
        intros Heq. rewrite <- !app_assoc in Heq. apply app_inv_head in Heq.
        simpl in Heq. by injection Heq. }
    cbn [fst snd].
    replace (base ++ c :: rel) with ((base ++ [c]) ++ rel) by by rewrite <- app_assoc.
    rewrite (IH (base ++ [c]) child content Hsub Hchild).
    destruct rel as [|c2 rel].
    + (* the file is a child of this directory *)
      rewrite fixtures_ancestors_single, Nat.add_0_r.
      rewrite filter_none; [done|]. intros f Hf.
      destruct (pat_fixtures c); [|by apply elem_of_nil in Hf].
      simpl in Hf. rewrite !app_nil_r in Hf.
      apply fixtures_below_path in Hf as (r' & c' & ->).
      intros Heq. apply (f_equal length) in Heq.
      rewrite !length_app in Heq. simpl in Heq. lia.
    + rewrite fixtures_ancestors_cons. f_equal.
      unfold pat_fixtures. case_decide as Hfix.
      * rewrite bool_decide_true by done. simpl. rewrite app_nil_r.
        by rewrite (fixtures_below_once _ child (c2 :: rel) content).
      * by rewrite bool_decide_false by done.
Qed.

End Occurrences.

(** C10: in a tree without repeated names, a regular file below the packages
    root is enumerated once for each of its ancestors named [__fixtures__],
    every time as the same fixture. *)
Theorem nested_fixtures_listed_per_ancestor (fs : node) (ai_root rel : Path)
    (content : option (list byte)) :
  wf fs = true ->
  lookup_node fs (ai_root ++ ["packages"] ++ rel) = Some (File content) ->
  filter (fun f => path f = ai_root ++ ["packages"] ++ rel) (iter_upstream_fixtures fs ai_root)
  = replicate (fixtures_ancestors rel)
      (mkUpstreamFixture (default "unknown" (head rel)) (ai_root ++ ["packages"] ++ rel)).
Proof.
  intros Hwf Hfile. rewrite app_assoc in Hfile |- *.
  set (p := (ai_root ++ ["packages"]) ++ rel).
  set (hits := filter (fun f => path f = p) (iter_upstream_fixtures fs ai_root)).
  assert (length hits = fixtures_ancestors rel) as Hlen.
  { unfold hits, iter_upstream_fixtures. rewrite sorted_by_perm.
    rewrite lookup_node_app in Hfile.
    destruct (lookup_node fs (ai_root ++ ["packages"])) as [n|] eqn:Hroot; [|done].
    unfold enumerate_upstream, rglob. rewrite Hroot.
    by apply (enumerate_below_count fs _ Hwf rel _ n content). }
  rewrite <- Hlen. symmetry. apply replicate_as_Forall. split; [done|].
  apply Forall_forall. intros f [Hp Hf]%list_elem_of_filter.
  destruct (enumerated_package_first_component fs ai_root f Hf) as [rest Hrest].
  rewrite Hp in Hrest. unfold p in Hrest. rewrite <- app_assoc in Hrest.
  do 2 apply app_inv_head in Hrest. subst rel. simpl.
  destruct f as [pkg pth]. simpl in *. by subst pth.
Qed.

Lemma nested_fixtures_listed_per_ancestor_witness :
  filter (fun f => path f = ["ai"] ++ ["packages"]
                    ++ ["anthropic"; "__fixtures__"; "sub"; "__fixtures__"; "twice.json"])
         (iter_upstream_fixtures sample_fs ["ai"])
  = replicate 2
      (mkUpstreamFixture "anthropic"
         (["ai"] ++ ["packages"]
          ++ ["anthropic"; "__fixtures__"; "sub"; "__fixtures__"; "twice.json"])).
Proof.
  apply (nested_fixtures_listed_per_ancestor sample_fs ["ai"]
           ["anthropic"; "__fixtures__"; "sub"; "__fixtures__"; "twice.json"]
           (Some (bytes "t"))).
  - vm_compute. reflexivity.
  - vm_compute. reflexivity.
Defined.

(** * Reading in chunks *)

Lemma read_app n data :
  (read n data).1 ++ (read n data).2 = data.
Proof.
  revert n. induction data as [|b data IH]; intros n; [done|].
  simpl. destruct (n =? 0)%N; [done|].
  specialize (IH (N.pred n)). destruct (read (N.pred n) data) as [chunk rem].
  simpl in *. by rewrite IH.
Qed.

Lemma read_nonempty n b data : n ≠ 0%N -> (read n (b :: data)).1 ≠ [].
Proof.
  intros Hn. simpl. destruct (N.eqb_spec n 0) as [->|_]; [done|].
  by destruct (read (N.pred n) data).
Qed.

(** The fuel given to the chunk loop is enough: the chunks fed to the hash
    object are, together, the whole file. *)
Lemma file_chunks_concat fuel data :
  length data < fuel -> concat (file_chunks fuel data) = data.
Proof.
  revert data. induction fuel as [|fuel IH]; intros data Hlen; [lia|].
  simpl. pose proof (read_app CHUNK data) as Happ.
  destruct data as [|b data].
  - done.
  - pose proof (read_nonempty CHUNK b data ltac:(done)) as Hne.
    destruct (read CHUNK (b :: data)) as [chunk rem]. simpl in Happ, Hne.
    destruct chunk as [|x chunk]; [done|].
    rewrite concat_cons, IH; [done|].
    apply (f_equal length) in Happ. rewrite length_app in Happ. simpl in *. lia.
Qed.

(** * Runs that cannot fail *)

Lemma fully_readable_lookup n p content :
  fully_readable n = true -> lookup_node n p = Some (File content) -> is_Some content.
Proof.
  revert n. induction p as [|c p IH]; intros n Hn Hl.
  - simpl in Hl. injection Hl as ->. simpl in Hn. by apply bool_decide_eq_true in Hn.
  - apply lookup_node_cons_Some in Hl as (es & child & -> & Hc & Hl).
    apply (IH child); [|done]. simpl in Hn. rewrite forallb_forall in Hn.
    apply (Hn (c, child)). by apply list_elem_of_In, find_entry_Some.
Qed.

Lemma is_file_readable fs p :
  fully_readable fs = true -> is_file fs p = true -> readable fs p = true.
Proof.
  intros Hfs. unfold is_file, readable.
  destruct (lookup_node fs p) as [[content| |]|] eqn:Hl; try done.
  by destruct (fully_readable_lookup fs p content Hfs Hl) as [data ->].
Qed.

Lemma index_entry_files fs ps : ∀ acc,
  (∀ nm cs c, acc.1 !! nm = Some cs -> c ∈ cs -> is_file fs c = true) ->
  ∀ nm cs c, (fold_left (index_entry fs) ps acc).1 !! nm = Some cs -> c ∈ cs ->
    is_file fs c = true.
Proof.
  induction ps as [|p ps IH]; intros acc Hacc; [done|].
  simpl. apply IH. destruct acc as [file_index dir_names]. unfold index_entry.
  destruct (is_dir fs p); [done|]. destruct (is_file fs p) eqn:Hp; [|done].
  simpl in *. intros nm cs c Hl Hc.
  destruct (decide (path_name p = nm)) as [<-|Hne].
  - rewrite lookup_insert_eq in Hl. injection Hl as <-.
    apply elem_of_app in Hc as [Hc|Hc].
    + destruct (file_index !! path_name p) as [old|] eqn:Hold; simpl in Hc.
      * by apply (Hacc _ _ _ Hold).
      * by apply elem_of_nil in Hc.
    + by apply list_elem_of_singleton in Hc as ->.
  - rewrite lookup_insert_ne in Hl by done. by apply (Hacc _ _ _ Hl).
Qed.

Lemma upstream_is_file fs ai_root f :
  f ∈ iter_upstream_fixtures fs ai_root -> is_file fs (path f) = true.
Proof.
  intros Hf. unfold iter_upstream_fixtures in Hf. rewrite sorted_by_perm in Hf.
  apply elem_of_enumerate_upstream in Hf as (d & _ & Hf).
  by apply elem_of_fixtures_below in Hf as (_ & _ & _ & Hfile).
Qed.

(** Where every regular file can be read, [main] hashes only readable files,
    so it returns. *)
Lemma main_all_readable ignore fs ai_root siumai_root :
  fully_readable fs = true ->
  all_readable fs (build_siumai_fixture_index fs siumai_root).1
               (upstream_of ignore fs ai_root) = true.
Proof.
  intros Hfs. unfold all_readable. apply forallb_forall. intros f Hf.
  apply list_elem_of_In, elem_of_upstream_of in Hf as [Hf _].
  apply forallb_forall. intros p Hp. apply list_elem_of_In in Hp.
  apply is_file_readable; [done|]. unfold needs in Hp.
  destruct (candidates_of _ f) as [|c cs] eqn:Hc; [by apply elem_of_nil in Hp|].
  apply elem_of_cons in Hp as [->|Hp]; [by apply (upstream_is_file fs ai_root)|].
  apply candidates_of_cons in Hc. unfold build_siumai_fixture_index in Hc.
  eapply (index_entry_files fs _ (∅, ∅)); [|exact Hc|exact Hp].
  intros nm cs' c'. simpl. by rewrite lookup_empty.
Qed.

Lemma main_returns `{Hasher} ignore fs ai_root siumai_root :
  fully_readable fs = true ->
  ∃ b opened, main ignore fs ai_root siumai_root [] = Some (b, opened).
Proof.
  intros Hfs. eexists _, _. rewrite main_unfold. apply audit_readable.
  by apply main_all_readable.
Qed.

(** With the stand-in hash object the digest of a file is its content: the
    chunk loop feeds every byte, in order. *)
Lemma fold_left_app_concat {B} (chunks : list (list B)) acc :
  fold_left (fun h chunk => h ++ chunk) chunks acc = acc ++ concat chunks.
Proof.
  revert acc. induction chunks as [|c chunks IH]; intros acc; simpl.
  - by rewrite app_nil_r.
  - by rewrite IH, app_assoc.
Qed.

Lemma plain_hasher_digest data :
  sha256_bytes (H := plain_hasher) data = String.string_of_list_byte data.
Proof.
  change (String.string_of_list_byte
            (fold_left (fun h chunk => h ++ chunk) (file_chunks (S (length data)) data) [])
          = String.string_of_list_byte data).
  rewrite fold_left_app_concat, app_nil_l. by rewrite file_chunks_concat by lia.
Qed.

(** * Worked examples *)

Example case_id_chunks_example :
  case_id (mkUpstreamFixture "anthropic" ["fx"; "anthropic-json-tool.1.chunks.txt"])
  = "anthropic-json-tool.1".
Proof. reflexivity. Qed.

Example case_id_extension_example :
  case_id (mkUpstreamFixture "openai" ["fx"; "foo.1.json"]) = "foo.1".
Proof. reflexivity. Qed.

Example case_id_no_dot_example :
  case_id (mkUpstreamFixture "openai" ["fx"; "README"]) = "README".
Proof. reflexivity. Qed.

Example normalize_case_id_examples :
  normalize_case_id "openai" "openai-foo.1" = "foo.1"
  ∧ normalize_case_id "xai" "xai-bar.2" = "bar.2"
  ∧ normalize_case_id "anthropic" "openai-foo.1" = "openai-foo.1".
Proof. by vm_compute. Qed.

Example case_dir_exists_examples :
  case_dir_exists {[ "foo.1-json"; "foo.1-text" ]} "foo.1" = true
  ∧ case_dir_exists {[ "foo.1" ]} "foo.1" = true
  ∧ case_dir_exists {[ "bar.1" ]} "foo.1" = false.
Proof. by vm_compute. Qed.

(** The sample tree: two one-to-one matches of which one drifted, one
    multi-match, two case directories, one ambiguous name, and three missing,
    two of them the same file under two nested [__fixtures__] directories. *)
Example sample_run :
  ∃ b opened,
    main (H := plain_hasher) sample_ignore sample_fs ["ai"] ["si"] [] = Some (b, opened)
    ∧ path <$> covered_by_file b
      = [ ["ai"; "packages"; "anthropic"; "__fixtures__"; "baz.1.chunks.txt"];
          ["ai"; "packages"; "anthropic"; "__fixtures__"; "drifted.json"] ]
    ∧ drift b
      = [ (mkUpstreamFixture "anthropic"
             ["ai"; "packages"; "anthropic"; "__fixtures__"; "drifted.json"],
           ["si"; "siumai"; "tests"; "fixtures"; "drifted.json"]) ]
    ∧ path <$> covered_by_case_dir b
      = [ ["ai"; "packages"; "openai"; "src"; "__fixtures__"; "openai-foo.1.json"];
          ["ai"; "packages"; "xai"; "__fixtures__"; "xai-bar.1.json"] ]
    ∧ length (covered_by_file_multi b) = 1
    ∧ length (ambiguous b) = 1
    ∧ path <$> missing b
      = [ ["ai"; "packages"; "anthropic"; "__fixtures__"; "sub"; "__fixtures__"; "twice.json"];
          ["ai"; "packages"; "anthropic"; "__fixtures__"; "sub"; "__fixtures__"; "twice.json"];
          ["ai"; "packages"; "google"; "__fixtures__"; "gone.json"] ]
    ∧ length opened = 10.
Proof. eexists _, _. split; [vm_compute; reflexivity|]. by vm_compute. Qed.

(** * Further properties: hashing *)






(** * Further properties: the loop *)

Section LoopFailure.
Context `{Hasher}.
Variables (fs : node) (file_index : gmap string (list Path)) (dir_names : gset string).

Lemma bind_None {A B} (m : M A) (k : A -> M B) o :
  m o = None -> (x ← m; k x) o = None.
Proof. intros Hm. unfold mbind, M_bind. by rewrite Hm. Qed.

Lemma filterM_unreadable up cs o :
  forallb (readable fs) cs = false ->
  filterM (fun c => h ← sha256 fs c; mret (bool_decide (h = up))) cs o = None.
Proof.
  revert o. induction cs as [|c cs IH]; intros o Hr; [done|].
  cbn [forallb filterM] in *.
  destruct (readable fs c) eqn:Hc.
  - destruct (readable_digest fs c Hc) as [d Hd].
    rewrite (bind_Some _ _ o (bool_decide (d = up)) (o ++ [c])).
    2:{ by rewrite (bind_Some _ _ o d (o ++ [c]) (sha256_readable fs c d o Hd)). }
    apply bind_None. by apply IH.
  - apply bind_None. apply bind_None. by apply sha256_unreadable.
Qed.

Lemma classify_unreadable b f o :
  forallb (readable fs) (needs file_index f) = false ->
  classify fs file_index dir_names b f o = None.
Proof.
  unfold classify, needs.
  destruct (candidates_of file_index f) as [|c1 [|c2 cs]] eqn:Hc; intros Hr; [done|..].
  - cbn [forallb] in Hr. destruct (readable fs (path f)) eqn:Hup.
    + destruct (readable_digest fs _ Hup) as [du Hdu].
      rewrite (bind_Some _ _ _ _ _ (sha256_readable fs _ _ o Hdu)).
      apply bind_None. apply sha256_unreadable.
      simpl in Hr. by destruct (readable fs c1).
    + apply bind_None. by apply sha256_unreadable.
  - cbn [forallb] in Hr. destruct (readable fs (path f)) eqn:Hup.
    + destruct (readable_digest fs _ Hup) as [du Hdu].
      rewrite (bind_Some _ _ _ _ _ (sha256_readable fs _ _ o Hdu)).
      apply bind_None. by apply filterM_unreadable.
    + apply bind_None. by apply sha256_unreadable.
Qed.

Lemma foldM_unreadable b upstream o :
  all_readable fs file_index upstream = false ->
  foldM (classify fs file_index dir_names) b upstream o = None.
Proof.
  revert b o. induction upstream as [|f rest IH]; intros b o Hr; [done|].
  unfold all_readable in Hr. cbn [forallb foldM] in *.
  destruct (forallb (readable fs) (needs file_index f)) eqn:Hf.
  - rewrite (bind_Some _ _ _ _ _ (classify_readable fs file_index dir_names b f o Hf)).
    by apply IH.
  - apply bind_None. by apply classify_unreadable.
Qed.

Lemma audit_Some_inv upstream b opened :
  audit fs file_index dir_names upstream [] = Some (b, opened) ->
  all_readable fs file_index upstream = true
  ∧ b = outcome fs file_index dir_names upstream
  ∧ opened = flat_map (needs file_index) upstream.
Proof.
  intros Ha. destruct (all_readable fs file_index upstream) eqn:Hr.
  - rewrite (audit_readable fs file_index dir_names upstream Hr) in Ha.
    by injection Ha as <- <-.
  - unfold audit in Ha. by rewrite (foldM_unreadable _ _ _ Hr) in Ha.
Qed.

Lemma buckets_app_assoc a b c :
  buckets_app (buckets_app a b) c = buckets_app a (buckets_app b c).
Proof. unfold buckets_app. simpl. by rewrite <- !app_assoc. Qed.

Lemma buckets_app_nil_r a : buckets_app a no_buckets = a.
Proof. destruct a. unfold buckets_app. simpl. by rewrite !app_nil_r. Qed.

Lemma fold_buckets_start ds a :
  fold_left buckets_app ds a = buckets_app a (fold_left buckets_app ds no_buckets).
Proof.
  revert a. induction ds as [|d ds IH]; intros a; simpl.
  - by rewrite buckets_app_nil_r.
  - rewrite (IH (buckets_app a d)), (IH (buckets_app no_buckets d)).
    rewrite buckets_app_assoc. f_equal; by destruct d.
Qed.

Lemma outcome_app l1 l2 :
  outcome fs file_index dir_names (l1 ++ l2)
  = buckets_app (outcome fs file_index dir_names l1) (outcome fs file_index dir_names l2).
Proof.
  unfold outcome. rewrite map_app, fold_left_app. apply fold_buckets_start.
Qed.

Lemma all_readable_app l1 l2 :
  all_readable fs file_index (l1 ++ l2)
  = all_readable fs file_index l1 && all_readable fs file_index l2.
Proof. unfold all_readable. apply forallb_app. Qed.

End LoopFailure.

(** X2: the loop either hashes every file its fixtures need and returns the
    six lists, or raises: it returns exactly when each fixture with at least
    one same-name candidate has a readable upstream file and readable
    candidates.  Fixtures without a candidate never make it raise. *)
Theorem audit_returns_iff_needs_readable `{Hasher} (fs : node)
    (file_index : gmap string (list Path)) (dir_names : gset string)
    (upstream : list UpstreamFixture) :
  (all_readable fs file_index upstream = true
   <-> ∃ b opened, audit fs file_index dir_names upstream [] = Some (b, opened))
  ∧ (all_readable fs file_index upstream = false
     <-> audit fs file_index dir_names upstream [] = None)
  ∧ ((∀ f, f ∈ upstream -> candidates_of file_index f = []) ->
     ∃ b, audit fs file_index dir_names upstream [] = Some (b, [])).
Proof.
  split; [|split].
  - split.
    + intros Hr. eexists _, _. by apply audit_readable.
    + intros (b & opened & Ha). by apply audit_Some_inv in Ha as (Hr & _).
  - split.
    + intros Hr. unfold audit. by apply foldM_unreadable.
    + intros Ha. destruct (all_readable fs file_index upstream) eqn:Hr; [|done].
      by rewrite (audit_readable fs file_index dir_names upstream Hr) in Ha.
  - intros Hnone.
    assert (∀ f, f ∈ upstream -> needs file_index f = []) as Hneeds.
    { intros f Hf. unfold needs. by rewrite (Hnone f Hf). }
    assert (all_readable fs file_index upstream = true) as Hr.
    { unfold all_readable. apply forallb_forall. intros f Hf.
      apply list_elem_of_In in Hf. by rewrite (Hneeds f Hf). }
    eexists. rewrite (audit_readable fs file_index dir_names upstream Hr). do 2 f_equal.
    clear Hr Hnone. induction upstream as [|f rest IH]; [done|]. simpl.
    rewrite (Hneeds f) by by left. apply IH. intros g Hg. apply Hneeds. by right.
Qed.

(** X3: the loop treats each fixture on its own: the run over two lists one
    after the other gives the lists of the first run followed by those of the
    second, and opens the files of the first and then those of the second. *)
Theorem audit_of_concatenation `{Hasher} (fs : node)
    (file_index : gmap string (list Path)) (dir_names : gset string)
    (l1 l2 : list UpstreamFixture) :
  all_readable fs file_index (l1 ++ l2) = true ->
  ∃ b1 o1 b2 o2,
    audit fs file_index dir_names l1 [] = Some (b1, o1)
    ∧ audit fs file_index dir_names l2 [] = Some (b2, o2)
    ∧ audit fs file_index dir_names (l1 ++ l2) [] = Some (buckets_app b1 b2, o1 ++ o2).
Proof.
  intros Hr. pose proof Hr as Hboth.
  rewrite all_readable_app in Hboth. apply andb_prop in Hboth as [H1 H2].
  eexists _, _, _, _.
  split; [by apply audit_readable|]. split; [by apply audit_readable|].
  rewrite (audit_readable fs file_index dir_names _ Hr).
  by rewrite outcome_app, flat_map_app.
Qed.

Lemma audit_of_concatenation_witness :
  ∃ b1 o1 b2 o2,
    audit (H := plain_hasher) sample_fs sample_index sample_dirs (take 4 sample_upstream) []
      = Some (b1, o1)
    ∧ audit (H := plain_hasher) sample_fs sample_index sample_dirs (drop 4 sample_upstream) []
      = Some (b2, o2)
    ∧ audit (H := plain_hasher) sample_fs sample_index sample_dirs
        (take 4 sample_upstream ++ drop 4 sample_upstream) []
      = Some (buckets_app b1 b2, o1 ++ o2).
Proof.
  apply (audit_of_concatenation (H := plain_hasher) sample_fs sample_index sample_dirs
           (take 4 sample_upstream) (drop 4 sample_upstream)).
  vm_compute. reflexivity.
Defined.

Lemma flat_map_as_filter {A} (P : A -> Prop) `{!∀ x, Decision (P x)} (g : A -> list A) l :
  (∀ x, g x = if decide (P x) then [x] else []) -> flat_map g l = filter P l.
Proof.
  intros Hg. induction l as [|a l IH]; [done|].
  simpl. rewrite filter_cons, Hg, IH. by destruct (decide (P a)).
Qed.

Lemma flat_map_sublist {A B} (g h : A -> list B) l :
  (∀ x, g x `sublist_of` h x) -> flat_map g l `sublist_of` flat_map h l.
Proof.
  intros Hgh. induction l as [|a l IH]; [done|]. simpl. by apply sublist_app.
Qed.

Lemma StronglySorted_sublist {A} (R : A -> A -> Prop) l1 l2 :
  l1 `sublist_of` l2 -> StronglySorted R l2 -> StronglySorted R l1.
Proof.
  induction 1 as [|x l1 l2 Hsub IH|x l1 l2 Hsub IH]; intros Hs; [constructor|..].
  - apply StronglySorted_inv in Hs as [Hs Hx]. constructor; [by apply IH|].
    apply Forall_forall. intros y Hy. rewrite Forall_forall in Hx. apply Hx.
    by apply (sublist_subseteq _ _ Hsub).
  - apply StronglySorted_inv in Hs as [Hs _]. by apply IH.
Qed.

Lemma filter_sublist_of {A} (P : A -> Prop) `{!∀ x, Decision (P x)} (l : list A) :
  filter P l `sublist_of` l.
Proof.
  induction l as [|a l IH]; [done|]. rewrite filter_cons.
  destruct (decide (P a)); by constructor.
Qed.

Section Order.
Context `{Hasher}.
Variables (fs : node) (file_index : gmap string (list Path)) (dir_names : gset string).

Local Abbreviation final := (outcome fs file_index dir_names).
Local Abbreviation cands := (candidates_of file_index).

Lemma outcome_proj_filter (proj : Buckets -> list UpstreamFixture)
    (P : UpstreamFixture -> Prop) `{!∀ f, Decision (P f)} upstream :
  (∀ a b, proj (buckets_app a b) = proj a ++ proj b) -> proj no_buckets = [] ->
  (∀ f, proj (contribution fs file_index dir_names f) = if decide (P f) then [f] else []) ->
  proj (final upstream) = filter P upstream.
Proof.
  intros Hhom Hnil Hone. unfold outcome.
  rewrite (fold_buckets_proj proj Hhom), Hnil, app_nil_l, flat_map_map.
  by apply flat_map_as_filter.
Qed.

Local Ltac settle Hd :=
  simpl;
  first [ done
        | exfalso; destruct Hd as [? ?]; (done || (simpl in *; lia))
        | exfalso; apply Hd; split; (done || (simpl; lia)) ].

Lemma covered_by_file_filter upstream :
  covered_by_file (final upstream) = filter (fun f => length (cands f) = 1) upstream.
Proof.
  apply (outcome_proj_filter covered_by_file); [done..|].
  intros f. unfold contribution.
  destruct (candidates_of file_index f) as [|c1 [|c2 cs]]; simpl.
  - by destruct (case_dir_exists _ _).
  - done.
  - by destruct (filter _ _).
Qed.

Lemma covered_by_case_dir_filter upstream :
  covered_by_case_dir (final upstream)
  = filter (fun f => cands f = []
                     ∧ case_dir_exists dir_names (normalize_case_id (package f) (case_id f)) = true)
           upstream.
Proof.
  apply (outcome_proj_filter covered_by_case_dir); [done..|].
  intros f. unfold contribution.
  destruct (candidates_of file_index f) as [|c1 [|c2 cs]].
  - destruct (case_dir_exists _ _); case_decide as Hd; settle Hd.
  - case_decide as Hd; settle Hd.
  - destruct (filter _ _); case_decide as Hd; settle Hd.
Qed.

Lemma missing_filter upstream :
  missing (final upstream)
  = filter (fun f => cands f = []
                     ∧ case_dir_exists dir_names (normalize_case_id (package f) (case_id f)) = false)
           upstream.
Proof.
  apply (outcome_proj_filter missing); [done..|].
  intros f. unfold contribution.
  destruct (candidates_of file_index f) as [|c1 [|c2 cs]].
  - destruct (case_dir_exists _ _); case_decide as Hd; settle Hd.
  - case_decide as Hd; settle Hd.
  - destruct (filter _ _); case_decide as Hd; settle Hd.
Qed.

Lemma multi_filter upstream :
  (covered_by_file_multi (final upstream)).*1.*1
  = filter (fun f => 2 ≤ length (cands f) ∧ matching_of fs f (cands f) ≠ []) upstream.
Proof.
  apply (outcome_proj_filter (fun b => (covered_by_file_multi b).*1.*1)).
  - intros a b. simpl. by rewrite !fmap_app.
  - done.
  - intros f. unfold contribution, matching_of.
    destruct (candidates_of file_index f) as [|c1 [|c2 cs]].
    + destruct (case_dir_exists _ _); case_decide as Hd; settle Hd.
    + case_decide as Hd; settle Hd.
    + destruct (filter _ (c1 :: c2 :: cs)) as [|m ms] eqn:Hm; case_decide as Hd; settle Hd.
Qed.

Lemma ambiguous_filter upstream :
  (ambiguous (final upstream)).*1
  = filter (fun f => 2 ≤ length (cands f) ∧ matching_of fs f (cands f) = []) upstream.
Proof.
  apply (outcome_proj_filter (fun b => (ambiguous b).*1)).
  - intros a b. simpl. by rewrite fmap_app.
  - done.
  - intros f. unfold contribution, matching_of.
    destruct (candidates_of file_index f) as [|c1 [|c2 cs]].
    + destruct (case_dir_exists _ _); case_decide as Hd; settle Hd.
    + case_decide as Hd; settle Hd.
    + destruct (filter _ (c1 :: c2 :: cs)) as [|m ms] eqn:Hm; case_decide as Hd; settle Hd.
Qed.

Lemma drift_sublist upstream :
  (drift (final upstream)).*1 `sublist_of` covered_by_file (final upstream).
Proof.
  unfold outcome.
  rewrite (fold_buckets_proj (fun b => (drift b).*1)) by (intros a b; simpl; by rewrite fmap_app).
  rewrite (fold_buckets_proj covered_by_file) by done.
  simpl. rewrite !flat_map_map. apply flat_map_sublist. intros f.
  unfold contribution.
  destruct (candidates_of file_index f) as [|c1 [|c2 cs]]; simpl.
  - by destruct (case_dir_exists _ _).
  - case_bool_decide; simpl; [apply sublist_nil_l|done].
  - by destruct (filter _ _).
Qed.

End Order.

Lemma upstream_of_sorted ignore fs ai_root :
  StronglySorted (key_le (fun f => path_str (path f))) (upstream_of ignore fs ai_root).
Proof.
  unfold upstream_of. eapply StronglySorted_sublist; [apply filter_sublist_of|].
  apply sorted_by_sorted.
Qed.

(** X4: each of the lists [main] reports is the sub-list of the enumerated
    fixtures that fall under its case, in enumeration order, so every listing
    is sorted by upstream path; the fixtures with a drift finding are a
    sub-list of [covered_by_file]. *)
Theorem lists_keep_enumeration_order `{Hasher} (ignore : gset string) (fs : node)
    (ai_root siumai_root : Path) :
  all_readable fs (build_siumai_fixture_index fs siumai_root).1
               (upstream_of ignore fs ai_root) = true ->
  ∃ b opened,
    main ignore fs ai_root siumai_root [] = Some (b, opened)
    ∧ covered_by_file b
      = filter (fun f => length (candidates_of (build_siumai_fixture_index fs siumai_root).1 f) = 1)
               (upstream_of ignore fs ai_root)
    ∧ (covered_by_file_multi b).*1.*1
      = filter (fun f =>
                  2 ≤ length (candidates_of (build_siumai_fixture_index fs siumai_root).1 f)
                  ∧ matching_of fs f
                      (candidates_of (build_siumai_fixture_index fs siumai_root).1 f) ≠ [])
               (upstream_of ignore fs ai_root)
    ∧ covered_by_case_dir b
      = filter (fun f =>
                  candidates_of (build_siumai_fixture_index fs siumai_root).1 f = []
                  ∧ case_dir_exists (build_siumai_fixture_index fs siumai_root).2
                      (normalize_case_id (package f) (case_id f)) = true)
               (upstream_of ignore fs ai_root)
    ∧ (ambiguous b).*1
      = filter (fun f =>
                  2 ≤ length (candidates_of (build_siumai_fixture_index fs siumai_root).1 f)
                  ∧ matching_of fs f
                      (candidates_of (build_siumai_fixture_index fs siumai_root).1 f) = [])
               (upstream_of ignore fs ai_root)
    ∧ missing b
      = filter (fun f =>
                  candidates_of (build_siumai_fixture_index fs siumai_root).1 f = []
                  ∧ case_dir_exists (build_siumai_fixture_index fs siumai_root).2
                      (normalize_case_id (package f) (case_id f)) = false)
               (upstream_of ignore fs ai_root)
    ∧ (drift b).*1 `sublist_of` covered_by_file b
    ∧ Forall (StronglySorted (key_le (fun f => path_str (path f))))
        [ covered_by_file b; (covered_by_file_multi b).*1.*1; covered_by_case_dir b;
          (ambiguous b).*1; missing b; (drift b).*1 ].
Proof.
  intros Hr. eexists _, _. rewrite main_unfold.
  split; [by apply audit_readable|].
  pose proof (upstream_of_sorted ignore fs ai_root) as Hsorted.
  split; [apply covered_by_file_filter|]. split; [apply multi_filter|].
  split; [apply covered_by_case_dir_filter|]. split; [apply ambiguous_filter|].
  split; [apply missing_filter|]. split; [apply drift_sublist|].
  assert (StronglySorted (key_le (fun f => path_str (path f)))
            (covered_by_file (outcome fs (build_siumai_fixture_index fs siumai_root).1
               (build_siumai_fixture_index fs siumai_root).2 (upstream_of ignore fs ai_root))))
    as Hcbf.
  { rewrite covered_by_file_filter.
    eapply StronglySorted_sublist; [apply filter_sublist_of|exact Hsorted]. }
  repeat constructor.
  - exact Hcbf.
  - rewrite multi_filter.
    eapply StronglySorted_sublist; [apply filter_sublist_of|exact Hsorted].
  - rewrite covered_by_case_dir_filter.
    eapply StronglySorted_sublist; [apply filter_sublist_of|exact Hsorted].
  - rewrite ambiguous_filter.
    eapply StronglySorted_sublist; [apply filter_sublist_of|exact Hsorted].
  - rewrite missing_filter.
    eapply StronglySorted_sublist; [apply filter_sublist_of|exact Hsorted].
  - eapply StronglySorted_sublist; [apply drift_sublist|exact Hcbf].
Qed.

Lemma lists_keep_enumeration_order_witness :
  ∃ b opened,
    main (H := plain_hasher) sample_ignore sample_fs ["ai"] ["si"] [] = Some (b, opened)
    ∧ (drift b).*1 `sublist_of` covered_by_file b
    ∧ StronglySorted (key_le (fun f => path_str (path f))) (missing b).
Proof.
  destruct (lists_keep_enumeration_order (H := plain_hasher)
              sample_ignore sample_fs ["ai"] ["si"])
    as (b & opened & Hmain & _ & _ & _ & _ & _ & Hsub & Hsorted).
  - vm_compute. reflexivity.
  - exists b, opened. split; [exact Hmain|]. split; [exact Hsub|].
    apply (Forall_inv (Forall_inv_tail (Forall_inv_tail (Forall_inv_tail
             (Forall_inv_tail Hsorted))))).
Defined.

(** X5: whatever a run of [main] lists, on any of its six lists, is an
    enumerated fixture whose package is not ignored. *)
Theorem ignored_packages_never_listed `{Hasher} (ignore : gset string) (fs : node)
    (ai_root siumai_root : Path) (b : Buckets) (opened : list Path) :
  main ignore fs ai_root siumai_root [] = Some (b, opened) ->
  ∀ f, f ∈ covered_by_file b ++ (covered_by_file_multi b).*1.*1 ++ covered_by_case_dir b
           ++ (ambiguous b).*1 ++ missing b ++ (drift b).*1 ->
    f ∈ iter_upstream_fixtures fs ai_root ∧ package f ∉ ignore.
Proof.
  rewrite main_unfold. intros (Hr & -> & _)%audit_Some_inv f Hf.
  apply elem_of_upstream_of.
  rewrite covered_by_file_filter, multi_filter, covered_by_case_dir_filter,
    ambiguous_filter, missing_filter in Hf.
  rewrite !elem_of_app, !list_elem_of_filter in Hf.
  destruct Hf as [[_ ?]|[[_ ?]|[[_ ?]|[[_ ?]|[[_ ?]|Hd]]]]]; try done.
  pose proof (drift_sublist fs (build_siumai_fixture_index fs siumai_root).1
                (build_siumai_fixture_index fs siumai_root).2
                (upstream_of ignore fs ai_root)) as Hsub.
  apply (sublist_subseteq _ _ Hsub) in Hd.
  rewrite covered_by_file_filter in Hd. by apply list_elem_of_filter in Hd as [_ ?].
Qed.

Lemma ignored_packages_never_listed_witness :
  main (H := plain_hasher) sample_ignore sample_fs ["ai"] ["si"] []
    = Some (outcome (H := plain_hasher) sample_fs sample_index sample_dirs sample_upstream,
            flat_map (needs sample_index) sample_upstream)
  ∧ ∀ f, f ∈ covered_by_file (outcome (H := plain_hasher) sample_fs sample_index sample_dirs sample_upstream)
           ++ (covered_by_file_multi
                 (outcome (H := plain_hasher) sample_fs sample_index sample_dirs sample_upstream)).*1.*1
           ++ covered_by_case_dir
                (outcome (H := plain_hasher) sample_fs sample_index sample_dirs sample_upstream)
           ++ (ambiguous
                 (outcome (H := plain_hasher) sample_fs sample_index sample_dirs sample_upstream)).*1
           ++ missing (outcome (H := plain_hasher) sample_fs sample_index sample_dirs sample_upstream)
           ++ (drift
                 (outcome (H := plain_hasher) sample_fs sample_index sample_dirs sample_upstream)).*1 ->
    f ∈ iter_upstream_fixtures sample_fs ["ai"] ∧ package f ∉ sample_ignore.
Proof.
  assert (main (H := plain_hasher) sample_ignore sample_fs ["ai"] ["si"] []
    = Some (outcome (H := plain_hasher) sample_fs sample_index sample_dirs sample_upstream,
            flat_map (needs sample_index) sample_upstream)) as Hmain
    by (vm_compute; reflexivity).
  split; [exact Hmain|].
  exact (ignored_packages_never_listed (H := plain_hasher) sample_ignore sample_fs
           ["ai"] ["si"] _ _ Hmain).
Defined.

(** X6: on a tree in which every regular file can be read, [main] returns:
    every path it hashes was found as a regular file by one of the two
    walks. *)
Theorem main_completes_on_readable_tree `{Hasher} (ignore : gset string) (fs : node)
    (ai_root siumai_root : Path) :
  fully_readable fs = true ->
  ∃ b opened,
    main ignore fs ai_root siumai_root [] = Some (b, opened)
    ∧ (∀ p, p ∈ opened -> is_file fs p = true ∧ readable fs p = true)
    ∧ classified b = length (upstream_of ignore fs ai_root).
Proof.
  intros Hfs. pose proof (main_all_readable ignore fs ai_root siumai_root Hfs) as Hr.
  eexists _, _. rewrite main_unfold. split; [by apply audit_readable|].
  split; [|apply classified_outcome].
  intros p (f & Hf & Hp)%list_elem_of_In%in_flat_map.
  unfold all_readable in Hr. rewrite forallb_forall in Hr. specialize (Hr f Hf).
  rewrite forallb_forall in Hr. specialize (Hr p Hp). split; [|done].
  unfold readable in Hr. unfold is_file.
  by destruct (lookup_node fs p) as [[[data|]| |]|].
Qed.

Lemma main_completes_on_readable_tree_witness :
  ∃ b opened,
    main (H := plain_hasher) sample_ignore sample_fs ["ai"] ["si"] [] = Some (b, opened)
    ∧ (∀ p, p ∈ opened -> is_file sample_fs p = true ∧ readable sample_fs p = true)
    ∧ classified b = length (upstream_of sample_ignore sample_fs ["ai"]).
Proof.
  apply (main_completes_on_readable_tree (H := plain_hasher) sample_ignore sample_fs
           ["ai"] ["si"]).
  vm_compute. reflexivity.
Defined.

(** * Further properties: the two walks *)

(** Whatever a path resolves to is found by the walk from any of its
    ancestors, when its name matches. *)
Lemma elem_of_walk_lookup matches : ∀ r base n x,
  lookup_node n r = Some x -> r ≠ [] -> matches (path_name r) = true ->
  base ++ r ∈ walk base n matches.
Proof.
  induction r as [|c r IH]; intros base n x Hl Hne Hm; [done|].
  apply lookup_node_cons_Some in Hl as (es & child & -> & Hc & Hl).
  apply find_entry_Some in Hc. rewrite walk_Dir. apply elem_of_app.
  destruct r as [|c2 r].
  - left. apply elem_of_select_children. exists (c, child). by split.
  - right. apply list_elem_of_In, in_flat_map. exists (c, child).
    split; [by apply list_elem_of_In|]. apply list_elem_of_In. simpl.
    replace (base ++ c :: c2 :: r) with ((base ++ [c]) ++ c2 :: r) by by rewrite <- app_assoc.
    by apply (IH _ child x).
Qed.

Lemma elem_of_rglob_lookup fs root rel x matches :
  lookup_node fs (root ++ rel) = Some x -> rel ≠ [] -> matches (path_name rel) = true ->
  root ++ rel ∈ rglob fs root matches.
Proof.
  rewrite lookup_node_app. unfold rglob.
  destruct (lookup_node fs root) as [n|]; [|done]. simpl.
  intros Hl Hne Hm. by apply (elem_of_walk_lookup matches rel root n x).
Qed.

Lemma path_name_app root rel : rel ≠ [] -> path_name (root ++ rel) = path_name rel.
Proof.
  intros Hne. unfold path_name. destruct (exists_last Hne) as (r & c & ->).
  by rewrite app_assoc, !last_last.
Qed.

Lemma is_dir_not_file fs p : is_dir fs p = true -> is_file fs p = false.
Proof. unfold is_dir, is_file. by destruct (lookup_node fs p) as [[| |]|]. Qed.

(** Conversely, a regular file strictly below a [__fixtures__] directory
    that lies strictly below the packages root is collected, tagged with the
    first component of that directory's path below the root. *)
Lemma regular_file_enumerated fs ai_root d below first :
  d ≠ [] -> below ≠ [] -> path_name d = "__fixtures__" -> head d = Some first ->
  is_file fs ((ai_root ++ ["packages"]) ++ d ++ below) = true ->
  mkUpstreamFixture first ((ai_root ++ ["packages"]) ++ d ++ below)
    ∈ enumerate_upstream fs (ai_root ++ ["packages"]).
Proof.
  set (root := ai_root ++ ["packages"]).
  intros Hd Hbelow Hname Hpkg Hfile.
  unfold is_file in Hfile. rewrite app_assoc, lookup_node_app in Hfile.
  destruct (lookup_node fs (root ++ d)) as [nd|] eqn:Hnd; [|done]. simpl in Hfile.
  destruct (lookup_node nd below) as [x|] eqn:Hx; [|done].
  assert (is_dir fs (root ++ d) = true) as Hisdir.
  { unfold is_dir. rewrite Hnd. destruct below as [|c below]; [done|].
    by apply lookup_node_cons_Some in Hx as (es & child & -> & _). }
  unfold enumerate_upstream. apply list_elem_of_In, in_flat_map. exists (root ++ d).
  split.
  - apply list_elem_of_In. apply (elem_of_rglob_lookup fs root d nd); [done..|].
    unfold pat_fixtures. by rewrite Hname, bool_decide_true.
  - apply list_elem_of_In. unfold fixtures_below. rewrite Hisdir.
    apply list_elem_of_fmap. exists (root ++ d ++ below). split.
    + f_equal. unfold package_of. rewrite relative_to_app. by destruct d as [|c d]; simplify_eq/=.
    + apply list_elem_of_filter. split.
      * apply Is_true_true. unfold is_file.
        rewrite app_assoc, lookup_node_app, Hnd. simpl. rewrite Hx. by destruct x.
      * rewrite app_assoc.
        apply (elem_of_rglob_lookup fs (root ++ d) below x); [|done..].
        by rewrite lookup_node_app, Hnd.
Qed.

(** C7: the enumeration is the collected list put in order of the rendered
    path by a stable sort: it is sorted, it is a permutation of what the two
    nested walks collected, and entries with equal keys keep their collected
    order.  Every fixture in it lies strictly below a directory named
    [__fixtures__] found under the packages root, whose path relative to that
    root gives the package by its first component, or the sentinel when there
    is no such component; and every regular file strictly below such a
    directory is in it, tagged with that first component. *)
Theorem iter_upstream_fixtures_sorted_and_tagged (fs : node) (ai_root : Path) :
  StronglySorted (key_le (fun f => path_str (path f))) (iter_upstream_fixtures fs ai_root) ∧
  iter_upstream_fixtures fs ai_root ≡ₚ enumerate_upstream fs (ai_root ++ ["packages"]) ∧
  (∀ k, filter (fun f => path_str (path f) = k) (iter_upstream_fixtures fs ai_root)
        = filter (fun f => path_str (path f) = k)
                 (enumerate_upstream fs (ai_root ++ ["packages"]))) ∧
  (∀ f, f ∈ iter_upstream_fixtures fs ai_root ->
    ∃ fixtures_dir below,
      fixtures_dir ∈ rglob fs (ai_root ++ ["packages"]) pat_fixtures
      ∧ path_name fixtures_dir = "__fixtures__"
      ∧ is_dir fs fixtures_dir = true
      ∧ path f = fixtures_dir ++ below ∧ below ≠ []
      ∧ is_file fs (path f) = true
      ∧ match relative_to fixtures_dir (ai_root ++ ["packages"]) with
        | Some (first :: _) => package f = first
        | _ => package f = "unknown"
        end) ∧
  (∀ d below first,
    d ≠ [] -> below ≠ [] -> path_name d = "__fixtures__" -> head d = Some first ->
    is_file fs ((ai_root ++ ["packages"]) ++ d ++ below) = true ->
    mkUpstreamFixture first ((ai_root ++ ["packages"]) ++ d ++ below)
      ∈ iter_upstream_fixtures fs ai_root).
Proof.
  split; [apply sorted_by_sorted|]. split; [apply sorted_by_perm|].
  split; [intros k; apply sorted_by_stable|]. split.
  - intros f Hf. unfold iter_upstream_fixtures in Hf. rewrite sorted_by_perm in Hf.
    apply elem_of_enumerate_upstream in Hf as (d & Hd & Hf).
    apply elem_of_fixtures_below in Hf as (Hdir & Hpkg & Hin & Hfile).
    destruct (elem_of_rglob_below _ _ _ _ Hd) as (r & c & Hdeq & Hc).
    destruct (elem_of_rglob_below _ _ _ _ Hin) as (r' & c' & Hfeq & _).
    exists d, (r' ++ [c']). split; [done|]. split.
    { rewrite Hdeq, app_assoc, path_name_snoc. by apply bool_decide_eq_true in Hc. }
    split; [done|]. split; [done|]. split; [by intros [_ ?]%app_eq_nil|]. split; [done|].
    rewrite Hpkg. unfold package_of.
    by destruct (relative_to d (ai_root ++ ["packages"])) as [[|first rest]|].
  - intros d below first Hd Hbelow Hname Hfirst Hfile.
    unfold iter_upstream_fixtures. rewrite sorted_by_perm.
    by apply regular_file_enumerated.
Qed.

Section Index.
Variable fs : node.

Lemma fold_index_files ps : ∀ acc nm,
  default [] ((fold_left (index_entry fs) ps acc).1 !! nm)
  = default [] (acc.1 !! nm) ++ filter (fun p => is_file fs p = true ∧ path_name p = nm) ps.
Proof.
  induction ps as [|p ps IH]; intros acc nm; simpl; [by rewrite app_nil_r|].
  rewrite IH, filter_cons. destruct acc as [file_index dir_names]. unfold index_entry.
  destruct (is_dir fs p) eqn:Hd.
  - rewrite (is_dir_not_file fs p Hd). rewrite decide_False; [done|]. by intros [? _].
  - destruct (is_file fs p) eqn:Hf; [|rewrite decide_False; [done|by intros [? _]]].
    simpl. destruct (decide (path_name p = nm)) as [<-|Hne].
    + rewrite lookup_insert_eq. simpl. rewrite decide_True by done. by rewrite <- app_assoc.
    + rewrite lookup_insert_ne by done. rewrite decide_False; [done|]. by intros [_ ?].
Qed.

Lemma fold_index_nonempty ps : ∀ acc,
  (∀ nm cs, acc.1 !! nm = Some cs -> cs ≠ []) ->
  ∀ nm cs, (fold_left (index_entry fs) ps acc).1 !! nm = Some cs -> cs ≠ [].
Proof.
  induction ps as [|p ps IH]; intros acc Hacc; [done|].
  simpl. apply IH. destruct acc as [file_index dir_names]. unfold index_entry.
  destruct (is_dir fs p); [done|]. destruct (is_file fs p); [|done].
  simpl in *. intros nm cs. destruct (decide (path_name p = nm)) as [<-|Hne].
  - rewrite lookup_insert_eq. intros [= <-]. by intros [_ ?]%app_eq_nil.
  - rewrite lookup_insert_ne by done. apply Hacc.
Qed.

Lemma fold_index_dirs ps : ∀ acc d,
  d ∈ (fold_left (index_entry fs) ps acc).2
  <-> d ∈ acc.2 ∨ ∃ p, p ∈ ps ∧ is_dir fs p = true ∧ path_name p = d.
Proof.
  induction ps as [|p ps IH]; intros acc d; simpl.
  - split; [by left|]. intros [?|(p & ?%elem_of_nil & _)]; done.
  - rewrite IH. destruct acc as [file_index dir_names]. unfold index_entry.
    destruct (is_dir fs p) eqn:Hd; simpl.
    + rewrite elem_of_union, elem_of_singleton. split.
      * intros [[->|?]|(q & Hq & ? & ?)]; [right; exists p; split; [by left|done]|by left|].
        right. exists q. split; [by right|done].
      * intros [?|(q & [->|Hq]%elem_of_cons & Hqd & <-)]; [by left; right|by left; left|].
        right. exists q. by split.
    + assert (∀ q, q ∈ p :: ps -> is_dir fs q = true -> q ∈ ps) as Hskip.
      { intros q [->|?]%elem_of_cons Hq; [by rewrite Hd in Hq|done]. }
      destruct (is_file fs p); simpl; (split;
        [ intros [?|(q & Hq & ? & ?)]; [by left|]; right; exists q;
          split; [by right|done]
        | intros [?|(q & Hq & Hqd & ?)]; [by left|]; right; exists q;
          split; [by apply Hskip|done] ]).
Qed.

End Index.

(** X7: the entry of [file_index] for a name lists, in walk order, exactly
    the regular files with that name strictly below the fixtures root; a name
    has no entry exactly when there is no such file, and no entry is an empty
    list. *)
Theorem file_index_lists_regular_files (fs : node) (siumai_root : Path) (nm : string) :
  default [] ((build_siumai_fixture_index fs siumai_root).1 !! nm)
  = filter (fun p => is_file fs p = true ∧ path_name p = nm)
           (rglob fs (siumai_root ++ ["siumai"; "tests"; "fixtures"]) pat_all)
  ∧ (∀ c, c ∈ default [] ((build_siumai_fixture_index fs siumai_root).1 !! nm)
          <-> ∃ rel, rel ≠ [] ∧ c = (siumai_root ++ ["siumai"; "tests"; "fixtures"]) ++ rel
                     ∧ is_file fs c = true ∧ path_name rel = nm)
  ∧ (∀ cs, (build_siumai_fixture_index fs siumai_root).1 !! nm = Some cs -> cs ≠ []).
Proof.
  set (root := siumai_root ++ ["siumai"; "tests"; "fixtures"]).
  assert (default [] ((build_siumai_fixture_index fs siumai_root).1 !! nm)
          = filter (fun p => is_file fs p = true ∧ path_name p = nm) (rglob fs root pat_all))
    as Heq.
  { unfold build_siumai_fixture_index. fold root. rewrite fold_index_files. simpl.
    by rewrite lookup_empty. }
  split; [exact Heq|]. split.
  - intros c. rewrite Heq, list_elem_of_filter. split.
    + intros [[Hfile Hname] Hin].
      destruct (elem_of_rglob_below _ _ _ _ Hin) as (r & c' & -> & _).
      exists (r ++ [c']). split; [by intros [_ ?]%app_eq_nil|]. split; [done|].
      split; [done|]. by rewrite path_name_app in Hname by by intros [_ ?]%app_eq_nil.
    + intros (rel & Hne & -> & Hfile & Hname).
      split; [split; [done|by rewrite path_name_app]|].
      unfold is_file in Hfile.
      destruct (lookup_node fs (root ++ rel)) as [x|] eqn:Hl; [|done].
      by apply (elem_of_rglob_lookup fs root rel x).
  - unfold build_siumai_fixture_index. apply fold_index_nonempty.
    intros nm' cs. simpl. by rewrite lookup_empty.
Qed.

(** X8: [dir_names] holds exactly the names of the directories strictly
    below the fixtures root; the root's own name is in it only if a nested
    directory carries it too. *)
Theorem dir_names_are_nested_directories (fs : node) (siumai_root : Path) (d : string) :
  d ∈ (build_siumai_fixture_index fs siumai_root).2
  <-> ∃ rel, rel ≠ []
             ∧ is_dir fs ((siumai_root ++ ["siumai"; "tests"; "fixtures"]) ++ rel) = true
             ∧ path_name rel = d.
Proof.
  set (root := siumai_root ++ ["siumai"; "tests"; "fixtures"]).
  unfold build_siumai_fixture_index. fold root. rewrite fold_index_dirs. simpl. split.
  - intros [?%not_elem_of_empty|(p & Hin & Hdir & Hname)]; [done|].
    destruct (elem_of_rglob_below _ _ _ _ Hin) as (r & c' & -> & _).
    exists (r ++ [c']). split; [by intros [_ ?]%app_eq_nil|]. split; [done|].
    by rewrite path_name_app in Hname by by intros [_ ?]%app_eq_nil.
  - intros (rel & Hne & Hdir & Hname). right. exists (root ++ rel).
    split; [|split; [done|by rewrite path_name_app]].
    unfold is_dir in Hdir.
    destruct (lookup_node fs (root ++ rel)) as [x|] eqn:Hl; [|done].
    by apply (elem_of_rglob_lookup fs root rel x).
Qed.

Lemma NoDup_filter_once {A} (P : A -> Prop) `{!∀ x, Decision (P x)} `{!EqDecision A}
    (l : list A) :
  (∀ x, x ∈ l -> P x -> filter (fun y => y = x) l = [x]) -> NoDup (filter P l).
Proof.
  induction l as [|a l IH]; intros Honce; [constructor|].
  assert (∀ x, x ∈ l -> P x -> a ≠ x ∧ filter (fun y => y = x) l = [x]) as Htail.
  { intros x Hx HP. pose proof (Honce x ltac:(by right) HP) as Hf.
    rewrite filter_cons in Hf. destruct (decide (a = x)) as [->|Hax]; [|done].
    injection Hf as Hf.
    by destruct (filter_nil_not_elem_of (fun y => y = x) l x Hf eq_refl). }
  rewrite filter_cons. destruct (decide (P a)) as [Ha|Ha].
  - constructor; [|apply IH; intros x Hx HP; by apply Htail].
    intros [HPa Hin]%list_elem_of_filter. by destruct (Htail a Hin HPa).
  - apply IH. intros x Hx HP. by apply Htail.
Qed.

(** X9: in a tree without repeated names no path is listed twice under a
    name, so the length of an entry is the number of regular files with that
    name. *)
Theorem file_index_lists_each_file_once (fs : node) (siumai_root : Path) (nm : string)
    (cs : list Path) :
  wf fs = true ->
  (build_siumai_fixture_index fs siumai_root).1 !! nm = Some cs ->
  NoDup cs.
Proof.
  intros Hwf Hl.
  assert (cs = default [] ((build_siumai_fixture_index fs siumai_root).1 !! nm)) as ->
    by by rewrite Hl.
  unfold build_siumai_fixture_index. rewrite fold_index_files. simpl.
  rewrite lookup_empty. simpl. refine (NoDup_filter_once _ _ _).
  intros c Hin [Hfile _]. set (root := siumai_root ++ ["siumai"; "tests"; "fixtures"]) in *.
  destruct (elem_of_rglob_below _ _ _ _ Hin) as (r & c' & -> & _).
  unfold is_file in Hfile. rewrite lookup_node_app in Hfile. unfold rglob.
  destruct (lookup_node fs root) as [n|] eqn:Hroot; [|done]. simpl in Hfile.
  destruct (lookup_node n (r ++ [c'])) as [x|] eqn:Hx; [|done].
  apply (walk_lists_once pat_all (r ++ [c']) root n x); try done.
  - by apply (wf_lookup fs root).
  - by intros [_ ?]%app_eq_nil.
Qed.

Lemma file_index_lists_each_file_once_witness :
  NoDup [ ["si"; "siumai"; "tests"; "fixtures"; "one"; "multi.json"];
          ["si"; "siumai"; "tests"; "fixtures"; "two"; "multi.json"] ].
Proof.
  apply (file_index_lists_each_file_once sample_fs ["si"] "multi.json").
  - vm_compute. reflexivity.
  - vm_compute. reflexivity.
Defined.

(** X10: the enumeration holds exactly the regular files that lie strictly
    below a directory named [__fixtures__] which itself lies strictly below
    the packages root, each tagged with the first component of its path
    below that root; so the sentinel package is never assigned. *)
Theorem enumerated_iff_below_fixtures_dir (fs : node) (ai_root : Path) (f : UpstreamFixture) :
  f ∈ iter_upstream_fixtures fs ai_root
  <-> ∃ d below,
        d ≠ [] ∧ below ≠ [] ∧ path_name d = "__fixtures__"
        ∧ path f = (ai_root ++ ["packages"]) ++ d ++ below
        ∧ is_file fs (path f) = true
        ∧ head d = Some (package f).
Proof.
  set (root := ai_root ++ ["packages"]).
  unfold iter_upstream_fixtures. fold root. rewrite sorted_by_perm. split.
  - intros (dir & Hdir & Hf)%elem_of_enumerate_upstream.
    apply elem_of_fixtures_below in Hf as (Hisdir & Hpkg & Hin & Hfile).
    destruct (elem_of_rglob_below _ _ _ _ Hdir) as (r & c & -> & Hc).
    destruct (elem_of_rglob_below _ _ _ _ Hin) as (r' & c' & Hp & _).
    exists (r ++ [c]), (r' ++ [c']).
    split; [by intros [_ ?]%app_eq_nil|]. split; [by intros [_ ?]%app_eq_nil|].
    split; [rewrite path_name_snoc; by apply bool_decide_eq_true in Hc|].
    split; [by rewrite Hp, <- !app_assoc|]. split; [done|].
    rewrite Hpkg. unfold package_of. rewrite relative_to_app. by destruct r.
  - intros (d & below & Hd & Hbelow & Hname & Hp & Hfile & Hpkg).
    destruct f as [pkg pth]. simpl in *. subst pth.
    by apply regular_file_enumerated.
Qed.

(** * Further properties: case ids and case directories *)

Lemma join_app sep a b :
  a ≠ [] -> b ≠ [] ->
  PyStr.join sep (a ++ b) = PyStr.join sep a +:+ sep +:+ PyStr.join sep b.
Proof.
  induction a as [|w a IH]; intros Ha Hb; [done|].
  destruct a as [|w' a].
  - simpl app. by rewrite join_cons.
  - change ((w :: w' :: a) ++ b) with (w :: (w' :: a) ++ b).
    rewrite !join_cons by done. rewrite IH by done. by rewrite !app_assoc_str.
Qed.

Lemma case_id_extension_stem f stem ext :
  PyStr.free_of "." ext = true -> name f = stem +:+ "." +:+ ext ->
  ¬ (ext = "txt" ∧ ∃ s, stem = s +:+ ".chunks") ->
  case_id f = stem.
Proof.
  intros Hfree Hname Hnot. rewrite case_id_unfold, Hname. cbv zeta.
  change (stem +:+ "." +:+ ext) with (stem +:+ String "." ext).
  rewrite split_app, (split_free "." ext Hfree).
  pose proof (split_not_nil "." stem) as Hne. pose proof (join_split "." stem) as Hjoin.
  destruct (exists_last Hne) as (ps & w & Hps). rewrite Hps in *. clear Hne.
  rewrite <- app_assoc. change ([w] ++ [ext]) with [w; ext].
  rewrite (last_n_app 2 ps [w; ext]) by done.
  assert (bool_decide (3 ≤ length (ps ++ [w; ext]))
          && bool_decide ([w; ext] = ["chunks"; "txt"]) = false) as ->.
  { apply andb_false_iff.
    destruct (decide ([w; ext] = ["chunks"; "txt"])) as [[= -> ->]|Hw];
      [|right; by apply bool_decide_eq_false].
    left. apply bool_decide_eq_false. intros Hlen. apply Hnot. split; [done|].
    destruct ps as [|p ps]; [simpl in Hlen; lia|].
    exists (PyStr.join "." (p :: ps)). rewrite <- Hjoin.
    change (String "." "") with ".". rewrite (join_app "." (p :: ps) ["chunks"]) by done.
    done. }
  rewrite bool_decide_true by (rewrite length_app; simpl; lia).
  replace (ps ++ [w; ext]) with ((ps ++ [w]) ++ [ext]) by by rewrite <- app_assoc.
  rewrite (but_last_n_app 1 (ps ++ [w]) [ext]) by done. exact Hjoin.
Qed.

(** X11: the case id is the file name with one suffix removed, whatever the
    rest of the name contains: the whole of [.chunks.txt], or else one final
    extension, or nothing when the name has no dot; a name that is only a
    dot and an extension has the empty case id. *)
Theorem case_id_removes_one_suffix :
  (∀ f stem, name f = stem +:+ ".chunks.txt" -> case_id f = stem)
  ∧ (∀ f stem ext,
       PyStr.free_of "." ext = true -> name f = stem +:+ "." +:+ ext ->
       ¬ (ext = "txt" ∧ ∃ s, stem = s +:+ ".chunks") ->
       case_id f = stem)
  ∧ (∀ f, PyStr.free_of "." (name f) = true -> case_id f = name f)
  ∧ (∀ f ext, PyStr.free_of "." ext = true -> name f = "." +:+ ext -> case_id f = "").
Proof.
  split; [apply case_id_chunks_stem|]. split; [apply case_id_extension_stem|]. split.
  - intros f Hfree. rewrite case_id_unfold. cbv zeta.
    by rewrite (split_free "." _ Hfree).
  - intros f ext Hfree Hname. apply (case_id_extension_stem f "" ext Hfree Hname).
    intros [_ [s Hs]]. by destruct s.
Qed.

(** X12: [case_dir_exists] is false for the empty set and monotone in the
    set: more directory names never turn a hit into a miss, so they never move
    a fixture from [covered_by_case_dir] to [missing]. *)
Theorem case_dir_exists_monotone :
  (∀ id, case_dir_exists ∅ id = false)
  ∧ (∀ (dirs dirs' : gset string) id,
       dirs ⊆ dirs' -> case_dir_exists dirs id = true -> case_dir_exists dirs' id = true)
  ∧ (∀ `{Hasher} fs file_index (dirs dirs' : gset string) f,
       dirs ⊆ dirs' ->
       covered_by_case_dir (contribution fs file_index dirs f) = [f] ->
       covered_by_case_dir (contribution fs file_index dirs' f) = [f]).
Proof.
  assert (∀ (dirs dirs' : gset string) id,
       dirs ⊆ dirs' -> case_dir_exists dirs id = true -> case_dir_exists dirs' id = true)
    as Hmono.
  { intros dirs dirs' id Hsub. unfold case_dir_exists.
    case_bool_decide as Hin.
    - intros _. rewrite bool_decide_true; [done|]. by apply Hsub.
    - intros (d & Hd & Hs)%existsb_exists. case_bool_decide; [done|].
      apply existsb_exists. exists d. split; [|done].
      apply list_elem_of_In, elem_of_elements, Hsub.
      by apply elem_of_elements, list_elem_of_In. }
  split; [apply case_dir_exists_empty|]. split; [exact Hmono|].
  intros H fs file_index dirs dirs' f Hsub. unfold contribution.
  destruct (candidates_of file_index f) as [|c1 [|c2 cs]]; [|done|by destruct (filter _ _)].
  destruct (case_dir_exists dirs _) eqn:Hd; [|done].
  by rewrite (Hmono dirs dirs' _ Hsub Hd).
Qed.

(** * Further properties: the command line and the report *)

Section Strip.
Variable ws : list (list ascii).
Hypothesis ws_nonempty : ∀ w, w ∈ ws -> w ≠ [].

Lemma strip_first_Some l rest : strip_first ws l = Some rest -> ∃ w, w ∈ ws ∧ l = w ++ rest.
Proof.
  unfold strip_first. destruct (find _ ws) as [w|] eqn:Hf; [|done]. intros [= <-].
  apply find_some in Hf as [Hin Hp]. apply bool_decide_eq_true in Hp as [k ->].
  exists w. split; [by apply list_elem_of_In|]. by rewrite drop_app_length.
Qed.

Lemma strip_first_None l w : strip_first ws l = None -> w ∈ ws -> ¬ w `prefix_of` l.
Proof.
  unfold strip_first. destruct (find _ ws) as [w'|] eqn:Hf; [done|]. intros _ Hin Hp.
  apply list_elem_of_In in Hin. pose proof (find_none _ _ Hf w Hin) as Hn. simpl in Hn.
  by rewrite bool_decide_true in Hn.
Qed.

Lemma strip_first_prefix l l' :
  strip_first ws l = None -> l' `prefix_of` l -> strip_first ws l' = None.
Proof.
  intros Hn Hp. destruct (strip_first ws l') as [rest|] eqn:Hr; [|done].
  apply strip_first_Some in Hr as (w & Hw & ->).
  destruct (strip_first_None l w Hn Hw). etrans; [|exact Hp]. by apply prefix_app_r.
Qed.

(** What is left is the end of the bytes. *)
Lemma lstrip_n_suffix n : ∀ l, lstrip_n ws n l `suffix_of` l.
Proof.
  induction n as [|n IH]; intros l; simpl; [done|].
  destruct (strip_first ws l) as [rest|] eqn:Hr; [|done].
  apply strip_first_Some in Hr as (w & _ & ->). etrans; [apply IH|]. by apply suffix_app_r.
Qed.

(** The length of the bytes is enough fuel: nothing is left to drop. *)
Lemma lstrip_n_done n : ∀ l, length l ≤ n -> strip_first ws (lstrip_n ws n l) = None.
Proof.
  induction n as [|n IH]; intros l Hl; simpl.
  - destruct l; [|simpl in Hl; lia]. destruct (strip_first ws []) as [rest|] eqn:Hr; [|done].
    apply strip_first_Some in Hr as (w & Hw & Heq). symmetry in Heq.
    apply app_eq_nil in Heq as [-> _]. by destruct (ws_nonempty [] Hw).
  - destruct (strip_first ws l) as [rest|] eqn:Hr; [|done]. apply IH.
    apply strip_first_Some in Hr as (w & Hw & ->). rewrite length_app in Hl.
    destruct w; [by destruct (ws_nonempty [] Hw)|]. simpl in Hl. lia.
Qed.

Lemma lstrip_n_id n l : strip_first ws l = None -> lstrip_n ws n l = l.
Proof. destruct n; simpl; [done|]. by intros ->. Qed.

End Strip.

Lemma white_space_nonempty w : w ∈ white_space -> w ≠ [].
Proof.
  unfold white_space. intros (cp & -> & _)%list_elem_of_fmap. unfold utf8.
  by repeat case_match.
Qed.

Lemma white_space_reverse_nonempty w : w ∈ reverse <$> white_space -> w ≠ [].
Proof.
  intros (w' & -> & Hw)%list_elem_of_fmap Hnil. apply (white_space_nonempty w' Hw).
  apply (f_equal reverse) in Hnil. by rewrite reverse_involutive in Hnil.
Qed.

Lemma lstrip_suffix l : lstrip l `suffix_of` l.
Proof. apply lstrip_n_suffix. Qed.

Lemma rstrip_prefix l : rstrip l `prefix_of` l.
Proof.
  unfold rstrip. rewrite <- (reverse_involutive l) at 3.
  apply suffix_prefix_reverse. apply lstrip_n_suffix.
Qed.

Lemma rstrip_idem l : rstrip (rstrip l) = rstrip l.
Proof.
  unfold rstrip. set (v := lstrip_n (reverse <$> white_space) (length l) (reverse l)).
  rewrite reverse_involutive. f_equal. apply lstrip_n_id.
  apply lstrip_n_done; [apply white_space_reverse_nonempty|]. by rewrite length_reverse.
Qed.

(** Nothing that [strip] returns can be stripped further. *)
Lemma strip_idem s : strip (strip s) = strip s.
Proof.
  unfold strip. rewrite list_ascii_of_string_of_list_ascii. f_equal.
  set (t := lstrip (list_ascii_of_string s)).
  assert (strip_first white_space t = None) as Ht
    by (apply lstrip_n_done; [apply white_space_nonempty|done]).
  assert (lstrip (rstrip t) = rstrip t) as ->.
  { apply lstrip_n_id. apply (strip_first_prefix _ t); [done|apply rstrip_prefix]. }
  apply rstrip_idem.
Qed.

Lemma free_of_bytes c s : PyStr.free_of c s = true <-> c ∉ list_ascii_of_string s.
Proof.
  induction s as [|a s IH]; simpl; [split; [intros _ ?%elem_of_nil; done|done]|].
  rewrite not_elem_of_cons. case_decide as Hac.
  - split; [done|]. by intros [? _].
  - rewrite IH. split; [by split|by intros [_ ?]].
Qed.

Lemma strip_free c s : PyStr.free_of c s = true -> PyStr.free_of c (strip s) = true.
Proof.
  rewrite !free_of_bytes. unfold strip. rewrite list_ascii_of_string_of_list_ascii.
  intros Hc Hin. apply Hc.
  destruct (rstrip_prefix (lstrip (list_ascii_of_string s))) as [k Hk].
  destruct (lstrip_suffix (list_ascii_of_string s)) as [k' Hk'].
  rewrite Hk', Hk. apply elem_of_app. right. apply elem_of_app. by left.
Qed.

Lemma split_pieces_free sep s : Forall (fun w => PyStr.free_of sep w = true) (PyStr.split sep s).
Proof.
  induction s as [|c s IH]; simpl; [by repeat constructor|].
  case_decide as Hc; [by constructor|].
  destruct (PyStr.split sep s) as [|w ws]; [repeat constructor; simpl; by rewrite decide_False|].
  apply Forall_cons in IH as [Hw Hws]. constructor; [|done].
  simpl. by rewrite decide_False.
Qed.

(** X13: every name parsed from [--ignore-packages] is non-empty, is left
    unchanged by [strip] and has no comma; a comma-separated list of such
    names is parsed into exactly those names, the default into the one name
    [langchain], and the empty argument into no name.  The white space
    removed around a name is that of [str.isspace], within and beyond ASCII: a
    piece made of white space alone gives no name. *)
Theorem parse_ignore_names :
  (∀ arg x, x ∈ parse_ignore arg ->
     x ≠ "" ∧ strip x = x ∧ PyStr.free_of "," x = true)
  ∧ (∀ names,
       Forall (fun x => x ≠ "" ∧ strip x = x ∧ PyStr.free_of "," x = true) names ->
       parse_ignore (PyStr.join "," names) = list_to_set names)
  ∧ parse_ignore "langchain" = {[ "langchain" ]}
  ∧ parse_ignore "" = ∅
  ∧ (∀ cp, cp ∈ white_space_code_points ->
       strip (string_of_list_ascii (utf8 cp)) = ""
       ∧ strip (string_of_list_ascii (utf8 cp ++ list_ascii_of_string "langchain" ++ utf8 cp))
         = "langchain"
       ∧ parse_ignore (string_of_list_ascii (utf8 cp)) = ∅)
  ∧ strip " a b " = "a b".
Proof.
  split; [|split; [|split; [|split; [|split]]]].
  - intros arg x. unfold parse_ignore.
    rewrite elem_of_list_to_set, list_elem_of_filter, list_elem_of_fmap.
    intros [Hne (piece & -> & Hpiece)]. split; [done|]. split; [apply strip_idem|].
    pose proof (split_pieces_free "," arg) as Hfree. rewrite Forall_forall in Hfree.
    apply strip_free. by apply Hfree.
  - intros names Hclean. unfold parse_ignore.
    destruct names as [|x names]; [done|].
    rewrite (split_join "," (x :: names)).
    + f_equal. induction Hclean as [|y ys (Hy & Hs & _) Hys IH]; [done|].
      cbn [map]. rewrite filter_cons_True by by rewrite Hs. by rewrite Hs, IH.
    + done.
    + eapply Forall_impl; [exact Hclean|]. by intros y (_ & _ & ?).
  - apply set_eq. intros x. unfold parse_ignore. by vm_compute.
  - done.
  - intros cp Hcp.
    assert (forallb (fun cp =>
              bool_decide (strip (string_of_list_ascii (utf8 cp)) = "")
              && bool_decide (strip (string_of_list_ascii
                                (utf8 cp ++ list_ascii_of_string "langchain" ++ utf8 cp))
                              = "langchain")
              && bool_decide (PyStr.split "," (string_of_list_ascii (utf8 cp))
                              = [string_of_list_ascii (utf8 cp)]))
              white_space_code_points = true) as Hall
      by (vm_compute; reflexivity).
    rewrite forallb_forall in Hall. apply list_elem_of_In in Hcp.
    apply Hall in Hcp as [[He Hl]%andb_prop Hs]%andb_prop.
    apply bool_decide_eq_true in He, Hl, Hs.
    split; [done|]. split; [done|]. unfold parse_ignore. rewrite Hs. cbn [map].
    by rewrite He.
  - by vm_compute.
Qed.

Lemma length_slice_to_nonneg {A} (k : Z) (l : list A) :
  (0 ≤ k)%Z -> length (slice_to k l) = Nat.min (Z.to_nat k) (length l).
Proof.
  intros Hk. unfold slice_to. rewrite (proj2 (Z.leb_le 0 k) Hk). apply length_take.
Qed.

Lemma length_slice_to_neg {A} (k : Z) (l : list A) :
  (k < 0)%Z -> length (slice_to k l) = length l - Z.to_nat (- k).
Proof.
  intros Hk. unfold slice_to. rewrite (proj2 (Z.leb_gt 0 k) Hk), length_take. lia.
Qed.

Lemma slice_to_prefix {A} (k : Z) (l : list A) : slice_to k l `prefix_of` l.
Proof. unfold slice_to. destruct (0 <=? k)%Z; apply prefix_take. Qed.

(** X14: [summarize_paths] gives the string forms of a leading part of the
    paths, in order: with a limit of zero or more, the first [limit] of them
    (all when there are fewer); with a negative limit, all but the last
    [-limit], which is nothing when there are no more than that. *)
Theorem summarize_paths_leading_part (paths : list Path) (limit : Z) :
  summarize_paths paths limit `prefix_of` map path_str paths
  ∧ ((0 ≤ limit)%Z ->
       length (summarize_paths paths limit) = Nat.min (Z.to_nat limit) (length paths))
  ∧ ((limit < 0)%Z ->
       length (summarize_paths paths limit) = length paths - Z.to_nat (- limit)).
Proof.
  unfold summarize_paths. split; [|split].
  - destruct (slice_to_prefix limit paths) as [rest Hrest].
    exists (map path_str rest). by rewrite Hrest at 1; rewrite map_app.
  - intros Hk. by rewrite length_map, length_slice_to_nonneg.
  - intros Hk. by rewrite length_map, length_slice_to_neg.
Qed.










(** X16: on a tree in which every regular file can be read, the program
    prints its report and returns 0, whatever it found; the first count
    printed is the sum of the five coverage counts after it, and the drift
    count is at most the count of one-to-one file matches. *)
Theorem main_cli_counts_add_up `{Hasher} (args : Args) (fs : node) :
  fully_readable fs = true ->
  ∃ excluded total by_file multi by_dir amb miss drifted sections opened,
    main_cli args fs []
    = Some (( [ [Text "Upstream fixtures (excluding "; Repr excluded; Text "): "; Int total];
                [Text "Covered by file match: "; Int by_file];
                [Text "Covered by file match (multi): "; Int multi];
                [Text "Covered by case-dir match: "; Int by_dir];
                [Text "Ambiguous file matches: "; Int amb];
                [Text "Missing: "; Int miss];
                [Text "Drift (hash mismatch on 1:1 file match): "; Int drifted] ]
              ++ sections, 0%Z), opened)
    ∧ total = by_file + multi + by_dir + amb + miss
    ∧ drifted ≤ by_file
    ∧ total = length (upstream_of (parse_ignore (arg_ignore_packages args)) fs (arg_ai_root args)).
Proof.
  intros Hfs.
  set (ignore := parse_ignore (arg_ignore_packages args)).
  pose proof (main_all_readable ignore fs (arg_ai_root args) (arg_siumai_root args) Hfs) as Hr.
  set (idx := (build_siumai_fixture_index fs (arg_siumai_root args)).1) in *.
  set (dirs := (build_siumai_fixture_index fs (arg_siumai_root args)).2).
  set (upstream := upstream_of ignore fs (arg_ai_root args)) in *.
  set (b := outcome fs idx dirs upstream).
  assert (main ignore fs (arg_ai_root args) (arg_siumai_root args) []
          = Some (b, flat_map (needs idx) upstream)) as Hmain.
  { rewrite main_unfold. by apply audit_readable. }
  eexists _, _, _, _, _, _, _, _, _, _. split.
  { unfold main_cli. fold ignore. rewrite (bind_Some _ _ _ _ _ Hmain).
    unfold mret, M_ret, report. reflexivity. }
  split; [|split; [|done]].
  - pose proof (classified_outcome fs idx dirs upstream) as Hsum.
    unfold classified in Hsum. subst b upstream. lia.
  - pose proof (drift_sublist fs idx dirs upstream) as Hsub.
    apply sublist_length in Hsub. by rewrite length_fmap in Hsub.
Qed.

Lemma main_cli_counts_add_up_witness :
  ∃ excluded total by_file multi by_dir amb miss drifted sections opened,
    main_cli (H := plain_hasher) (mkArgs ["ai"] ["si"] "langchain" 50) sample_fs []
    = Some (( [ [Text "Upstream fixtures (excluding "; Repr excluded; Text "): "; Int total];
                [Text "Covered by file match: "; Int by_file];
                [Text "Covered by file match (multi): "; Int multi];
                [Text "Covered by case-dir match: "; Int by_dir];
                [Text "Ambiguous file matches: "; Int amb];
                [Text "Missing: "; Int miss];
                [Text "Drift (hash mismatch on 1:1 file match): "; Int drifted] ]
              ++ sections, 0%Z), opened)
    ∧ total = by_file + multi + by_dir + amb + miss
    ∧ drifted ≤ by_file
    ∧ total = length (upstream_of
                        (parse_ignore (arg_ignore_packages (mkArgs ["ai"] ["si"] "langchain" 50)))
                        sample_fs (arg_ai_root (mkArgs ["ai"] ["si"] "langchain" 50))).
Proof.
  apply (main_cli_counts_add_up (H := plain_hasher)
           (mkArgs ["ai"] ["si"] "langchain" 50) sample_fs).
  vm_compute. reflexivity.
Defined.

(** * Further properties: what the verdicts mean *)

Lemma normalize_case_id_prefixed pkg pfx stem :
  (pkg = "openai" ∧ pfx = "openai-") ∨ (pkg = "xai" ∧ pfx = "xai-") ->
  normalize_case_id pkg (pfx +:+ stem) = stem.
Proof.
  intros [[-> ->]|[-> ->]]; rewrite normalize_case_id_unfold.
  - assert (PyStr.startswith ("openai-" +:+ stem) "openai-" = true) as ->
      by (apply startswith_spec; by exists stem).
    simpl andb. cbv iota. apply slice_from_app.
  - rewrite bool_decide_false by done.
    assert (PyStr.startswith ("xai-" +:+ stem) "xai-" = true) as ->
      by (apply startswith_spec; by exists stem).
    simpl andb. cbv iota. apply slice_from_app.
Qed.

(** X17: the helpers compose as intended: an openai (xai) fixture whose file
    name is the provider prefix, a stem and [.chunks.txt] or one extension
    other than [txt], and which has no same-name local file, is put on
    [covered_by_case_dir] as soon as a local directory is named like the stem,
    or like the stem followed by a hyphen and anything.  The step of the loop
    for it appends it to that list and to no other, opening no file; so in
    the result of the loop, and of [main] when the index is the one [main]
    builds, it is on [covered_by_case_dir] and on no other coverage list. *)
Theorem provider_prefix_bridges_to_case_dir `{Hasher} (fs : node)
    (file_index : gmap string (list Path)) (dir_names : gset string)
    (f : UpstreamFixture) (pfx stem : string) :
  (package f = "openai" ∧ pfx = "openai-") ∨ (package f = "xai" ∧ pfx = "xai-") ->
  (name f = (pfx +:+ stem) +:+ ".chunks.txt"
   ∨ ∃ ext, ext ≠ "txt" ∧ PyStr.free_of "." ext = true
            ∧ name f = (pfx +:+ stem) +:+ "." +:+ ext) ->
  (stem ∈ dir_names ∨ ∃ variant, (stem +:+ "-") +:+ variant ∈ dir_names) ->
  candidates_of file_index f = [] ->
  normalize_case_id (package f) (case_id f) = stem
  ∧ (∀ b opened,
       classify fs file_index dir_names b f opened
       = Some (mkBuckets (covered_by_file b) (covered_by_file_multi b)
                 (covered_by_case_dir b ++ [f]) (missing b) (ambiguous b) (drift b),
               opened))
  ∧ (∀ upstream b opened,
       f ∈ upstream ->
       audit fs file_index dir_names upstream [] = Some (b, opened) ->
       f ∈ covered_by_case_dir b
       ∧ bucket_flags b f = [false; false; true; false; false])
  ∧ (∀ ignore ai_root siumai_root b opened,
       file_index = (build_siumai_fixture_index fs siumai_root).1 ->
       dir_names = (build_siumai_fixture_index fs siumai_root).2 ->
       f ∈ upstream_of ignore fs ai_root ->
       main ignore fs ai_root siumai_root [] = Some (b, opened) ->
       f ∈ covered_by_case_dir b
       ∧ bucket_flags b f = [false; false; true; false; false]).
Proof.
  intros Hpkg Hname Hdir Hnone.
  assert (case_id f = pfx +:+ stem) as Hid.
  { destruct Hname as [Hn|(ext & Hext & Hfree & Hn)]; [by apply case_id_chunks_stem|].
    apply (case_id_extension_stem f _ ext Hfree Hn). by intros [? _]. }
  assert (normalize_case_id (package f) (case_id f) = stem) as Hnorm.
  { rewrite Hid. apply normalize_case_id_prefixed.
    destruct Hpkg as [[-> ->]|[-> ->]]; [by left|by right]. }
  assert (case_dir_exists dir_names stem = true) as Hexists.
  { unfold case_dir_exists. case_bool_decide as Hin; [done|].
    destruct Hdir as [?|[variant Hv]]; [done|].
    apply existsb_exists. exists ((stem +:+ "-") +:+ variant). split.
    - by apply list_elem_of_In, elem_of_elements.
    - apply startswith_spec. by exists variant. }
  assert (∀ upstream b opened,
            f ∈ upstream ->
            audit fs file_index dir_names upstream [] = Some (b, opened) ->
            f ∈ covered_by_case_dir b
            ∧ bucket_flags b f = [false; false; true; false; false]) as Hloop.
  { intros upstream b opened Hf (_ & -> & _)%audit_Some_inv. split.
    - apply in_covered_by_case_dir. by rewrite Hnorm.
    - rewrite (bucket_flags_outcome fs file_index dir_names upstream f Hf).
      by rewrite Hnone, Hnorm, Hexists. }
  split; [done|]. split; [|split; [exact Hloop|]].
  - intros b opened. unfold classify. by rewrite Hnone, Hnorm, Hexists.
  - intros ignore ai_root siumai_root b opened -> -> Hf Hmain.
    rewrite main_unfold in Hmain. by apply (Hloop _ _ _ Hf Hmain).
Qed.

Lemma provider_prefix_bridges_to_case_dir_witness :
  normalize_case_id "xai"
    (case_id (mkUpstreamFixture "xai" ["ai"; "packages"; "xai"; "__fixtures__"; "xai-bar.1.json"]))
  = "bar.1"
  ∧ (∀ b opened,
       classify (H := plain_hasher) sample_fs sample_index sample_dirs b
         (mkUpstreamFixture "xai" ["ai"; "packages"; "xai"; "__fixtures__"; "xai-bar.1.json"])
         opened
       = Some (mkBuckets (covered_by_file b) (covered_by_file_multi b)
                 (covered_by_case_dir b
                  ++ [mkUpstreamFixture "xai"
                        ["ai"; "packages"; "xai"; "__fixtures__"; "xai-bar.1.json"]])
                 (missing b) (ambiguous b) (drift b),
               opened))
  ∧ ∃ b opened,
      main (H := plain_hasher) sample_ignore sample_fs ["ai"] ["si"] [] = Some (b, opened)
      ∧ mkUpstreamFixture "xai" ["ai"; "packages"; "xai"; "__fixtures__"; "xai-bar.1.json"]
          ∈ covered_by_case_dir b
      ∧ bucket_flags b
          (mkUpstreamFixture "xai" ["ai"; "packages"; "xai"; "__fixtures__"; "xai-bar.1.json"])
        = [false; false; true; false; false].
Proof.
  pose proof (provider_prefix_bridges_to_case_dir (H := plain_hasher) sample_fs sample_index
           sample_dirs
           (mkUpstreamFixture "xai" ["ai"; "packages"; "xai"; "__fixtures__"; "xai-bar.1.json"])
           "xai-" "bar.1") as Hx.
  destruct Hx as (Hnorm & Hstep & _ & Hmain).
  - right. by split.
  - right. exists "json". by repeat split.
  - right. exists "json". by vm_compute.
  - by vm_compute.
  - split; [exact Hnorm|]. split; [exact Hstep|].
    assert (main (H := plain_hasher) sample_ignore sample_fs ["ai"] ["si"] []
            = Some (outcome (H := plain_hasher) sample_fs sample_index sample_dirs
                      sample_upstream,
                    flat_map (needs sample_index) sample_upstream)) as Hrun
      by (vm_compute; reflexivity).
    eexists _, _. split; [exact Hrun|].
    refine (Hmain sample_ignore ["ai"] ["si"] _ _ eq_refl eq_refl _ Hrun).
    vm_compute. apply list_elem_of_In. simpl. tauto.
Defined.

Lemma file_digest_bytes `{Hasher} fs p data :
  lookup_node fs p = Some (File (Some data)) -> file_digest fs p = Some (sha256_bytes data).
Proof. intros Hl. unfold file_digest. by rewrite Hl. Qed.

Lemma readable_bytes fs p :
  readable fs p = true -> ∃ data, lookup_node fs p = Some (File (Some data)).
Proof.
  unfold readable. destruct (lookup_node fs p) as [[[data|]| |]|]; try done. by exists data.
Qed.

(** X18: with any hash function, a drift finding means that the two files
    differ in their bytes; a candidate with the bytes of the upstream file is
    always on the matching list of a multi-match; and no candidate of an
    ambiguous fixture has the bytes of the upstream file. *)
Theorem drift_means_different_bytes `{Hasher} (fs : node)
    (file_index : gmap string (list Path)) (dir_names : gset string)
    (upstream : list UpstreamFixture) (b : Buckets) (opened : list Path) :
  audit fs file_index dir_names upstream [] = Some (b, opened) ->
  (∀ f si, (f, si) ∈ drift b ->
     ∃ du ds, lookup_node fs (path f) = Some (File (Some du))
              ∧ lookup_node fs si = Some (File (Some ds)) ∧ du ≠ ds)
  ∧ (∀ f matching cs c data, (f, matching, cs) ∈ covered_by_file_multi b -> c ∈ cs ->
       lookup_node fs c = Some (File (Some data)) ->
       lookup_node fs (path f) = Some (File (Some data)) ->
       c ∈ matching)
  ∧ (∀ f cs c data, (f, cs) ∈ ambiguous b -> c ∈ cs ->
       lookup_node fs c = Some (File (Some data)) ->
       lookup_node fs (path f) ≠ Some (File (Some data))).
Proof.
  intros (Hr & -> & _)%audit_Some_inv. split; [|split].
  - intros f si (Hf & Hc & Hd)%in_drift.
    unfold all_readable in Hr. rewrite forallb_forall in Hr.
    specialize (Hr f ltac:(by apply list_elem_of_In)).
    unfold needs in Hr. rewrite Hc in Hr. cbn [forallb] in Hr.
    apply andb_prop in Hr as [Hup Hlo]. apply andb_prop in Hlo as [Hlo _].
    destruct (readable_bytes fs _ Hup) as [du Hdu].
    destruct (readable_bytes fs _ Hlo) as [ds Hds].
    exists du, ds. split; [done|]. split; [done|]. intros ->.
    apply Hd. by rewrite (file_digest_bytes fs _ _ Hdu), (file_digest_bytes fs _ _ Hds).
  - intros f matching cs c data (Hf & Hc & _ & -> & _)%in_covered_by_file_multi Hin Hlc Hlf.
    apply list_elem_of_filter. split; [|done].
    by rewrite (file_digest_bytes fs _ _ Hlc), (file_digest_bytes fs _ _ Hlf).
  - intros f cs c data (Hf & Hc & _ & Hnone)%in_ambiguous Hin Hlc Hlf.
    assert (c ∈ filter (fun c => file_digest fs c = file_digest fs (path f)) cs) as Hm.
    { apply list_elem_of_filter. split; [|done].
      by rewrite (file_digest_bytes fs _ _ Hlc), (file_digest_bytes fs _ _ Hlf). }
    rewrite Hnone in Hm. by apply elem_of_nil in Hm.
Qed.

Lemma drift_means_different_bytes_witness :
  audit (H := plain_hasher) sample_fs sample_index sample_dirs sample_upstream []
    = Some (outcome (H := plain_hasher) sample_fs sample_index sample_dirs sample_upstream,
            flat_map (needs sample_index) sample_upstream)
  ∧ ∃ du ds,
      lookup_node sample_fs ["ai"; "packages"; "anthropic"; "__fixtures__"; "drifted.json"]
        = Some (File (Some du))
      ∧ lookup_node sample_fs ["si"; "siumai"; "tests"; "fixtures"; "drifted.json"]
        = Some (File (Some ds))
      ∧ du ≠ ds.
Proof.
  assert (audit (H := plain_hasher) sample_fs sample_index sample_dirs sample_upstream []
    = Some (outcome (H := plain_hasher) sample_fs sample_index sample_dirs sample_upstream,
            flat_map (needs sample_index) sample_upstream)) as Haudit
    by (vm_compute; reflexivity).
  split; [exact Haudit|].
  apply (proj1 (drift_means_different_bytes (H := plain_hasher) sample_fs sample_index
                  sample_dirs sample_upstream _ _ Haudit)
           (mkUpstreamFixture "anthropic"
              ["ai"; "packages"; "anthropic"; "__fixtures__"; "drifted.json"])).
  vm_compute. apply list_elem_of_singleton. reflexivity.
Defined.
